(** * The per-core network device layer of seastar ([net/net.hh])

    A shallow embedding of [net::forward_hash], [net::qp] and [net::device]
    and the properties of them that the specification states.

    Conventions.  Every integer of the source is unsigned ([uint8_t],
    [uint16_t], [uint32_t], [uint64_t], [size_t], [unsigned]); it is a
    value of [N] here, and every place where the C++ type truncates the
    result of an operation is written out as a reduction modulo a power of
    two.  A [std::vector] or [circular_buffer] is a list, front first.
    An operation that can abort on an [assert] or run into undefined
    behaviour (reading a slot that does not exist, shifting a 32-bit value
    by 32 or more, dividing by zero) returns a [result]. *)

From Stdlib Require Import NArith Lia List.
From Stdlib Require String.
From stdpp Require Import base option list numbers.

Local Open Scope N_scope.

(** ** Outcomes of a call *)

Inductive result (A : Type) : Type :=
| Ok (a : A)
| AssertionFailed
| Undefined.

Arguments Ok {A} a.
Arguments AssertionFailed {A}.
Arguments Undefined {A}.

#[global] Instance result_ret : MRet result := λ A a, Ok a.

#[global] Instance result_bind : MBind result := λ A B f m,
  match m with
  | Ok a => f a
  | AssertionFailed => AssertionFailed
  | Undefined => Undefined
  end.

(** [assert(c)] with assertions compiled in. *)
Definition assert (c : bool) : result unit :=
  if c then Ok tt else AssertionFailed.

(** ** Integer conversions *)

Definition uint8_t (x : N) : N := x mod 2 ^ 8.
Definition uint16_t (x : N) : N := x mod 2 ^ 16.
Definition uint32_t (x : N) : N := x mod 2 ^ 32.
Definition uint64_t (x : N) : N := x mod 2 ^ 64.

(** ** [class forward_hash] *)

Module ForwardHash.

(** [uint8_t data[64]; size_t end_idx = 0;] *)
Record forward_hash : Type := mk {
  data : list N;
  end_idx : N
}.

(** [sizeof(data)] *)
Definition sizeof_data : N := 64.

(** A freshly constructed object: [end_idx] is 0 and [data] is not
    initialised, so it holds 64 bytes of anything. *)
Definition fresh (garbage : list N) : forward_hash := mk garbage 0.

(** The array of the C++ object has its 64 cells. *)
Definition wf (h : forward_hash) : Prop := length (data h) = 64%nat.

(** [size_t size() const] *)
Definition size (h : forward_hash) : N := end_idx h.

(** [void push_back(uint8_t b)] *)
Definition push_back_u8 (b : N) (h : forward_hash) : result forward_hash :=
  _ ← assert (end_idx h <? sizeof_data);
  Ok (mk (<[N.to_nat (end_idx h) := b]> (data h)) (end_idx h + 1)).

(** [void push_back(uint16_t b)] *)
Definition push_back_u16 (b : N) (h : forward_hash) : result forward_hash :=
  h1 ← push_back_u8 (uint8_t b) h;
  push_back_u8 (uint8_t (N.shiftr b 8)) h1.

(** [void push_back(uint32_t b)] *)
Definition push_back_u32 (b : N) (h : forward_hash) : result forward_hash :=
  h1 ← push_back_u16 (uint16_t b) h;
  push_back_u16 (uint16_t (N.shiftr b 16)) h1.

(** [const uint8_t& operator[](size_t idx) const]; reading outside the
    array is undefined. *)
Definition index (h : forward_hash) (idx : N) : option N :=
  data h !! N.to_nat idx.

(** A call of the overloaded [push_back]: the overload chosen and the
    argument, which the parameter type truncates. *)
Inductive push_arg : Type :=
| U8 (b : N)
| U16 (b : N)
| U32 (b : N).

Definition push_back (a : push_arg) (h : forward_hash) : result forward_hash :=
  match a with
  | U8 b => push_back_u8 (uint8_t b) h
  | U16 b => push_back_u16 (uint16_t b) h
  | U32 b => push_back_u32 (uint32_t b) h
  end.

(** A sequence of calls, left to right; a failed assertion ends the run. *)
Fixpoint push_all (l : list push_arg) (h : forward_hash) : result forward_hash :=
  match l with
  | [] => Ok h
  | a :: l' => h1 ← push_back a h; push_all l' h1
  end.

(** *** What the calls are meant to append

    The bytes of a value, least significant first, and the bytes of a
    sequence of calls. *)
Fixpoint le_bytes (n : nat) (x : N) : list N :=
  match n with
  | O => []
  | S n' => x mod 256 :: le_bytes n' (x / 256)
  end.

Definition width (a : push_arg) : nat :=
  match a with U8 _ => 1 | U16 _ => 2 | U32 _ => 4 end%nat.

Definition value (a : push_arg) : N :=
  match a with U8 b | U16 b | U32 b => b end.

Definition bytes_of (a : push_arg) : list N := le_bytes (width a) (value a).

Definition appended (l : list push_arg) : list N := flat_map bytes_of l.

Definition total_bytes (l : list push_arg) : nat :=
  foldr (λ a n, (width a + n)%nat) 0%nat l.

(** The bytes written so far: the first [end_idx] cells. *)
Definition written (h : forward_hash) : list N :=
  take (N.to_nat (end_idx h)) (data h).

End ForwardHash.

(** ** [class qp] *)

Section queue_pair.

(** [packet] is the opaque frame buffer.  [W] is everything outside the
    queue pair that the closures it holds and the backend can read and
    write: the state of the upper layers that feed packets and of the
    NIC. *)
Context {packet W : Type}.

(** [packet_provider_type]: a [std::function<optional<packet> ()>].  The
    closures this file creates are the one of [add_proxy], which captures
    [this]; any other one comes from an upper layer and works on [W]: it
    is taken not to call back into the queue pair that is polling it. *)
Inductive packet_provider : Type :=
| proxy_provider
| upper_provider (f : W → option packet * W).

Record qp : Type := mk_qp {
  _pkt_providers : list packet_provider;
  proxies : list N;
  _proxy_packetq : list packet;
  _tx_packetq : list packet;
  _packets_snt : N;
  _packets_rcv : N;
  _last_tx_bunch : N;
  _last_rx_bunch : N
}.

(** [qp()]: empty containers, counters at 0. *)
Definition qp_new : qp := mk_qp [] [] [] [] 0 0 0 0.

Definition set_pkt_providers (v : list packet_provider) (q : qp) : qp :=
  mk_qp v (proxies q) (_proxy_packetq q) (_tx_packetq q)
        (_packets_snt q) (_packets_rcv q) (_last_tx_bunch q) (_last_rx_bunch q).

Definition set_proxies (v : list N) (q : qp) : qp :=
  mk_qp (_pkt_providers q) v (_proxy_packetq q) (_tx_packetq q)
        (_packets_snt q) (_packets_rcv q) (_last_tx_bunch q) (_last_rx_bunch q).

Definition set_proxy_packetq (v : list packet) (q : qp) : qp :=
  mk_qp (_pkt_providers q) (proxies q) v (_tx_packetq q)
        (_packets_snt q) (_packets_rcv q) (_last_tx_bunch q) (_last_rx_bunch q).

Definition set_tx_packetq (v : list packet) (q : qp) : qp :=
  mk_qp (_pkt_providers q) (proxies q) (_proxy_packetq q) v
        (_packets_snt q) (_packets_rcv q) (_last_tx_bunch q) (_last_rx_bunch q).

(** [_tx_packetq.size()] *)
Definition tx_size (q : qp) : N := N.of_nat (length (_tx_packetq q)).

(** [void update_rx_count(uint64_t count)] *)
Definition update_rx_count (count : N) (q : qp) : qp :=
  mk_qp (_pkt_providers q) (proxies q) (_proxy_packetq q) (_tx_packetq q)
        (_packets_snt q) (uint64_t (_packets_rcv q + count))
        (_last_tx_bunch q) count.

(** [bool may_forward()] *)
Definition may_forward (q : qp) : bool :=
  match proxies q with [] => false | _ :: _ => true end.

(** [void register_packet_provider(packet_provider_type func)] *)
Definition register_packet_provider (func : packet_provider) (q : qp) : qp :=
  set_pkt_providers (_pkt_providers q ++ [func]) q.

(** [void add_proxy(unsigned cpu)] *)
Definition add_proxy (cpu : N) (q : qp) : qp :=
  let q1 := if may_forward q then q
            else register_packet_provider proxy_provider q in
  set_proxies (proxies q1 ++ [cpu]) q1.

(** [void proxy_send(packet p)] *)
Definition proxy_send (p : packet) (q : qp) : qp :=
  set_proxy_packetq (_proxy_packetq q ++ [p]) q.

(** The body of the closure that [add_proxy] registers. *)
Definition proxy_drain (q : qp) : option packet * qp :=
  match _proxy_packetq q with
  | [] => (None, q)
  | p :: rest => (Some p, set_proxy_packetq rest q)
  end.

(** [pr()] for a provider [pr] of the list. *)
Definition call_provider (pr : packet_provider) (q : qp) (w : W)
    : option packet * qp * W :=
  match pr with
  | proxy_provider => let '(p, q1) := proxy_drain q in (p, q1, w)
  | upper_provider f => let '(p, w1) := f w in (p, q, w1)
  end.

(** The [for] loop of [poll_tx] over the providers that are left, with its
    [break]; [work] is the [uint32_t] counter. *)
Fixpoint poll_tx_for (prs : list packet_provider) (work : N) (q : qp) (w : W)
    : N * qp * W :=
  match prs with
  | [] => (work, q, w)
  | pr :: rest =>
      let '(p, q1, w1) := call_provider pr q w in
      match p with
      | Some pk =>
          let work1 := uint32_t (work + 1) in
          let q2 := set_tx_packetq (_tx_packetq q1 ++ [pk]) q1 in
          if tx_size q2 =? 128 then (work1, q2, w1)
          else poll_tx_for rest work1 q2 w1
      | None => poll_tx_for rest work q1 w1
      end
  end.

(** The [do ... while (work && _tx_packetq.size() < 128)] loop; [fuel]
    bounds the number of passes and [None] means it ran out. *)
Fixpoint poll_tx_refill (fuel : nat) (q : qp) (w : W) : option (qp * W) :=
  match fuel with
  | O => None
  | S fuel' =>
      let '(work, q1, w1) := poll_tx_for (_pkt_providers q) 0 q w in
      if negb (work =? 0) && (tx_size q1 <? 128)
      then poll_tx_refill fuel' q1 w1
      else Some (q1, w1)
  end.

(** [virtual uint32_t send(circular_buffer<packet>& p)] of the backend:
    given the batch it returns the count, what it left in the batch, and
    the new outside state.  The batch is the one member of the queue pair
    that it is handed. *)
Variable send : list packet → W → N * list packet * W.

(** The tail of [poll_tx], after the refill; [uint32_t n] is the count
    in the return type of [send]. *)
Definition poll_tx_send (q : qp) (w : W) : bool * qp * W :=
  match _tx_packetq q with
  | [] => (false, q, w)
  | _ :: _ =>
      let '(n, remaining, w1) := send (_tx_packetq q) w in
      let bunch := uint32_t n in
      (true,
       mk_qp (_pkt_providers q) (proxies q) (_proxy_packetq q) remaining
             (uint64_t (_packets_snt q + bunch)) (_packets_rcv q)
             bunch (_last_rx_bunch q),
       w1)
  end.

(** [bool poll_tx()] *)
Definition poll_tx (fuel : nat) (q : qp) (w : W) : option (bool * qp * W) :=
  '(q1, w1) ← (if tx_size q <? 16 then poll_tx_refill fuel q w else Some (q, w));
  Some (poll_tx_send q1 w1).

(** The default [send(circular_buffer<packet>&)]: one [send(packet)] of
    the backend per packet, from the front, until the batch is empty. *)
Fixpoint send_loop (send1 : packet → W → W) (p : list packet) (sent : N) (w : W)
    : N * list packet * W :=
  match p with
  | [] => (sent, [], w)
  | x :: rest => send_loop send1 rest (uint32_t (sent + 1)) (send1 x w)
  end.

Definition send_batch (send1 : packet → W → W) (p : list packet) (w : W)
    : N * list packet * W :=
  send_loop send1 p 0 w.

(** *** The refill as the specification words it

    [ask pr] is one provider asked for one packet, which joins the batch if
    there is one; [ask_all prs] asks the providers of [prs] from left to
    right. *)
Definition ask (s : qp * W) (pr : packet_provider) : qp * W :=
  let '(p, q1, w1) := call_provider pr (fst s) (snd s) in
  match p with
  | Some pk => (set_tx_packetq (_tx_packetq q1 ++ [pk]) q1, w1)
  | None => (q1, w1)
  end.

Definition ask_all (prs : list packet_provider) (s : qp * W) : qp * W :=
  fold_left ask prs s.

(** [refill_run prs s s']: starting in [s], the refill over the providers
    [prs] ends in [s'].  It goes pass after pass; a pass that brings the
    batch to 128 is cut there and is the last, a complete pass that adds
    nothing is the last, and after any other pass the next one starts. *)
Inductive refill_run (prs : list packet_provider) : qp * W → qp * W → Prop :=
| refill_cap s asked pr rest :
    prs = asked ++ pr :: rest →
    tx_size (fst (ask_all asked s)) < 128 →
    tx_size (fst (ask_all (asked ++ [pr]) s)) = 128 →
    refill_run prs s (ask_all (asked ++ [pr]) s)
| refill_idle s :
    tx_size (fst (ask_all prs s)) = tx_size (fst s) →
    tx_size (fst s) < 128 →
    refill_run prs s (ask_all prs s)
| refill_more s s' :
    tx_size (fst s) < tx_size (fst (ask_all prs s)) →
    tx_size (fst (ask_all prs s)) < 128 →
    refill_run prs (ask_all prs s) s' →
    refill_run prs s s'.

(** *** Sequences of calls *)

(** [add_proxy] for each core of [cpus], from left to right. *)
Definition add_proxy_all (cpus : list N) (q : qp) : qp :=
  fold_left (λ q' cpu, add_proxy cpu q') cpus q.

(** [proxy_send] for each packet of [ps], from left to right. *)
Definition proxy_send_all (ps : list packet) (q : qp) : qp :=
  fold_left (λ q' p, proxy_send p q') ps q.

(** [n] successive calls of the provider [pr], with what each returned. *)
Fixpoint call_n (pr : packet_provider) (n : nat) (q : qp) (w : W)
    : list (option packet) * qp * W :=
  match n with
  | O => ([], q, w)
  | S n' =>
      let '(p, q1, w1) := call_provider pr q w in
      let '(ps, q2, w2) := call_n pr n' q1 w1 in
      (p :: ps, q2, w2)
  end.

(** The member functions that change a queue pair. *)
Inductive qp_call : Type :=
| call_update_rx_count (count : N)
| call_add_proxy (cpu : N)
| call_proxy_send (p : packet)
| call_register_packet_provider (func : packet_provider)
| call_poll_tx.

Definition run_call (fuel : nat) (c : qp_call) (q : qp) (w : W)
    : option (qp * W) :=
  match c with
  | call_update_rx_count count => Some (update_rx_count count q, w)
  | call_add_proxy cpu => Some (add_proxy cpu q, w)
  | call_proxy_send p => Some (proxy_send p q, w)
  | call_register_packet_provider func =>
      Some (register_packet_provider func q, w)
  | call_poll_tx =>
      '(_, q1, w1) ← poll_tx fuel q w; Some (q1, w1)
  end.

(** What asking providers may do to a queue pair: packets join the batch
    at its back, the proxy queue loses packets at its front, which are
    among those that joined, in the same order; nothing else changes. *)
Definition only_moves_packets (q q1 : qp) : Prop :=
  _pkt_providers q1 = _pkt_providers q ∧
  proxies q1 = proxies q ∧
  _packets_snt q1 = _packets_snt q ∧
  _packets_rcv q1 = _packets_rcv q ∧
  _last_tx_bunch q1 = _last_tx_bunch q ∧
  _last_rx_bunch q1 = _last_rx_bunch q ∧
  ∃ new taken,
    _tx_packetq q1 = _tx_packetq q ++ new ∧
    _proxy_packetq q = taken ++ _proxy_packetq q1 ∧
    taken `sublist_of` new.

(** A sequence of calls, from left to right. *)
Fixpoint run_calls (fuel : nat) (cs : list qp_call) (q : qp) (w : W)
    : option (qp * W) :=
  match cs with
  | [] => Some (q, w)
  | c :: cs' => '(q1, w1) ← run_call fuel c q w; run_calls fuel cs' q1 w1
  end.

(** [update_rx_count] for each count of [counts], from left to right. *)
Definition update_rx_count_all (counts : list N) (q : qp) : qp :=
  fold_left (λ q' count, update_rx_count count q') counts q.

Definition is_proxy_provider (pr : packet_provider) : bool :=
  match pr with proxy_provider => true | upper_provider _ => false end.

(** The closure of [add_proxy] is created nowhere else: a call from
    outside registers a closure of an upper layer. *)
Definition from_outside (c : qp_call) : bool :=
  match c with
  | call_register_packet_provider func => negb (is_proxy_provider func)
  | _ => true
  end.

(** The cores that the [add_proxy] calls of a sequence name, in order. *)
Definition added_proxies (cs : list qp_call) : list N :=
  flat_map (λ c, match c with call_add_proxy cpu => [cpu] | _ => [] end) cs.

End queue_pair.

Arguments packet_provider : clear implicits.
Arguments qp : clear implicits.
Arguments qp_call : clear implicits.

(** ** [class device] *)

Section device.

Context {packet W : Type}.

(** [_queues] is the array of [smp::count] pointers, [None] for a null
    one; a slot that is set stands for the queue pair it points to.
    [hw_queues_count] is what the virtual method of that name returns (1
    unless the backend overrides it). *)
Record device : Type := mk_device {
  _queues : list (option (qp packet W));
  _rss_table_bits : N;
  hw_queues_count : N
}.

(** [device()]: [make_unique<qp*[]>(smp::count)] value-initialises the
    array, so every pointer is null. *)
Definition device_new (smp_count : nat) (hw_queues : N) : device :=
  mk_device (replicate smp_count None) 0 hw_queues.

(** [qp& queue_for_cpu(unsigned cpu)]: undefined outside the array and
    through a null pointer. *)
Definition queue_for_cpu (d : device) (cpu : N) : result (qp packet W) :=
  match _queues d !! N.to_nat cpu with
  | Some (Some q) => Ok q
  | _ => Undefined
  end.

(** [virtual unsigned hash2qid(uint32_t hash)] *)
Definition hash2qid (d : device) (hash : N) : result N :=
  if hw_queues_count d =? 0 then Undefined
  else Ok (hash mod hw_queues_count d).

(** [void set_local_queue(std::unique_ptr<qp> dev)], called on the core
    [cpu_id] (the value of [engine.cpu_id()]).  The [at_destroy] hook only
    keeps the queue pair alive until the core shuts down. *)
Definition set_local_queue (cpu_id : N) (dev : qp packet W) (d : device)
    : result device :=
  match _queues d !! N.to_nat cpu_id with
  | None => Undefined
  | Some slot =>
      _ ← assert (match slot with None => true | Some _ => false end);
      Ok (mk_device (<[N.to_nat cpu_id := Some dev]> (_queues d))
                    (_rss_table_bits d) (hw_queues_count d))
  end.

(** [unsigned forward_dst(unsigned src_cpuid, Func&& hashfn)]; the shift
    is one of a 32-bit value. *)
Definition forward_dst (d : device) (src_cpuid : N) (hashfn : unit → N)
    : result N :=
  q ← queue_for_cpu d src_cpuid;
  if negb (may_forward q) then Ok src_cpuid
  else if 32 <=? _rss_table_bits d then Undefined
  else
    let hash := N.shiftr (hashfn tt) (_rss_table_bits d) in
    let idx := hash mod (N.of_nat (length (proxies q)) + 1) in
    if idx =? 0 then Ok src_cpuid
    else match proxies q !! N.to_nat (idx - 1) with
         | Some cpu => Ok cpu
         | None => Undefined
         end.

(** [virtual unsigned hash2cpu(uint32_t hash)] *)
Definition hash2cpu (d : device) (hash : N) : result N :=
  qid ← hash2qid d hash;
  forward_dst d qid (λ _, hash).

(** The index that the specification gives for the forwarding decision. *)
Definition forward_index (d : device) (q : qp packet W) (hash : N) : N :=
  N.shiftr hash (_rss_table_bits d) mod (N.of_nat (length (proxies q)) + 1).

(** [set_local_queue] on one core after the other: each pair is a core
    and the queue pair it installs. *)
Fixpoint set_local_queues (ins : list (N * qp packet W)) (d : device)
    : result device :=
  match ins with
  | [] => Ok d
  | (cpu_id, dev) :: rest =>
      d1 ← set_local_queue cpu_id dev d; set_local_queues rest d1
  end.

End device.

Arguments device : clear implicits.

(** ** [class logger] ([util/log.hh]) *)

Module Log.








End Log.

(** ** A small world to run the definitions in

    Two upper layers, each with packets (numbers) waiting to go out, and a
    wire that records what the backend sent, in order. *)

Module Demo.

Record world : Type := mk_world {
  pending_a : list N;
  pending_b : list N;
  wire : list N
}.

Definition provider_a : packet_provider N world :=
  upper_provider (λ w,
    match pending_a w with
    | [] => (None, w)
    | p :: rest => (Some p, mk_world rest (pending_b w) (wire w))
    end).

Definition provider_b : packet_provider N world :=
  upper_provider (λ w,
    match pending_b w with
    | [] => (None, w)
    | p :: rest => (Some p, mk_world (pending_a w) rest (wire w))
    end).

(** [send(packet)] of this backend. *)
Definition send1 (p : N) (w : world) : world :=
  mk_world (pending_a w) (pending_b w) (wire w ++ [p]).

(** A backend that keeps the default batch [send]. *)
Definition send_all : list N → world → N * list N * world :=
  send_batch send1.

(** A backend whose batch [send] sends nothing. *)
Definition send_none (p : list N) (w : world) : N * list N * world :=
  (0, p, w).

(** A queue pair with both providers registered, [provider_a] first. *)
Definition qp_ab : qp N world :=
  register_packet_provider provider_b
    (register_packet_provider provider_a qp_new).

(** A queue pair that forwards to core 1, with the packets [ps] waiting
    in its proxy queue. *)
Definition qp_forwarding (ps : list N) : qp N world :=
  proxy_send_all ps (add_proxy 1 qp_new).

(** The numbers [from], [from + 1], ..., [n] of them. *)
Fixpoint count_from (from : N) (n : nat) : list N :=
  match n with
  | O => []
  | S n' => from :: count_from (from + 1) n'
  end.

(** A busy queue pair: [provider_a] registered, core 1 as a proxy, the
    packets 0 to 129 waiting in the proxy queue and 4 packets received. *)
Definition qp_busy : qp N world :=
  update_rx_count 4
    (proxy_send_all (count_from 0 130)
       (add_proxy 1 (register_packet_provider provider_a qp_new))).

(** The same queue pair after one [poll_tx] that sent 128 packets. *)
Definition qp_busy_polled : qp N world :=
  mk_qp [provider_a; proxy_provider] [1] [127; 128; 129] [] 128 4 128 4.

(** A device of 3 cores whose core 0 has a queue pair with the given
    proxies, and one hardware queue. *)
Definition device_with (bits : N) (proxy_cores : list N) : device unit unit :=
  mk_device [Some (add_proxy_all proxy_cores qp_new); None; None] bits 1.

End Demo.

(** * Properties *)

(** Goals on [/] and [mod] by constants. *)
Ltac div_mod_lia :=
  zify; Z.to_euclidean_division_equations; lia.

(** ** The hash accumulator *)

Module ForwardHashFacts.
Import ForwardHash.

Lemma length_le_bytes n x : length (le_bytes n x) = n.
Proof. revert x; induction n as [|n IH]; intros x; simpl; [done|by rewrite IH]. Qed.

Lemma length_appended l : length (appended l) = total_bytes l.
Proof.
  induction l as [|a l IH]; [done|].
  unfold appended in *; simpl.
  rewrite length_app, IH. unfold bytes_of. by rewrite length_le_bytes.
Qed.

Lemma push_back_u8_full b h :
  sizeof_data <= end_idx h → push_back_u8 b h = AssertionFailed.
Proof.
  intros Hfull. unfold push_back_u8.
  destruct (N.ltb_spec (end_idx h) sizeof_data) as [Hlt|_]; [lia|done].
Qed.

Lemma push_back_u8_room b h :
  end_idx h < sizeof_data →
  push_back_u8 b h =
    Ok (mk (<[N.to_nat (end_idx h) := b]> (data h)) (end_idx h + 1)).
Proof.
  intros Hroom. unfold push_back_u8.
  destruct (N.ltb_spec (end_idx h) sizeof_data) as [_|Hge]; [done|lia].
Qed.

(** One byte goes to the cell after the ones already written. *)
Lemma push_back_u8_written b h :
  wf h → end_idx h < 64 →
  ∃ h', push_back_u8 b h = Ok h' ∧ wf h' ∧
        end_idx h' = end_idx h + 1 ∧ written h' = written h ++ [b].
Proof.
  intros Hwf Hroom. eexists. split; [by apply push_back_u8_room|].
  unfold wf, written in *; simpl. split; [by rewrite length_insert|].
  split; [done|].
  replace (N.to_nat (end_idx h + 1)) with (S (N.to_nat (end_idx h))) by lia.
  rewrite (take_S_r _ _ b) by (apply list_lookup_insert_eq; lia).
  by rewrite take_insert_ge.
Qed.

Lemma push_back_u16_written b h :
  wf h → end_idx h + 2 <= 64 →
  ∃ h', push_back_u16 b h = Ok h' ∧ wf h' ∧ end_idx h' = end_idx h + 2 ∧
        written h' = written h ++ [uint8_t b; uint8_t (N.shiftr b 8)].
Proof.
  intros Hwf Hroom. unfold push_back_u16.
  destruct (push_back_u8_written (uint8_t b) h) as (h1 & -> & Hwf1 & He1 & Hw1);
    [done|lia|].
  destruct (push_back_u8_written (uint8_t (N.shiftr b 8)) h1)
    as (h2 & E2 & Hwf2 & He2 & Hw2); [done|lia|].
  exists h2. simpl. split; [done|]. split; [done|]. split; [lia|].
  by rewrite Hw2, Hw1, <-app_assoc.
Qed.

Lemma push_back_u32_written b h :
  wf h → end_idx h + 4 <= 64 →
  ∃ h', push_back_u32 b h = Ok h' ∧ wf h' ∧ end_idx h' = end_idx h + 4 ∧
        written h' = written h ++
          [uint8_t (uint16_t b); uint8_t (N.shiftr (uint16_t b) 8);
           uint8_t (uint16_t (N.shiftr b 16));
           uint8_t (N.shiftr (uint16_t (N.shiftr b 16)) 8)].
Proof.
  intros Hwf Hroom. unfold push_back_u32.
  destruct (push_back_u16_written (uint16_t b) h) as (h1 & -> & Hwf1 & He1 & Hw1);
    [done|lia|].
  destruct (push_back_u16_written (uint16_t (N.shiftr b 16)) h1)
    as (h2 & E2 & Hwf2 & He2 & Hw2); [done|lia|].
  exists h2. simpl. split; [done|]. split; [done|]. split; [lia|].
  by rewrite Hw2, Hw1, <-app_assoc.
Qed.

(** The truncations and shifts of the source pick the bytes of the value,
    least significant first. *)
Lemma u16_bytes b :
  [uint8_t (uint16_t b); uint8_t (N.shiftr (uint16_t b) 8)] = le_bytes 2 b.
Proof.
  unfold uint8_t, uint16_t; simpl. rewrite !N.shiftr_div_pow2.
  change (2 ^ 8) with 256; change (2 ^ 16) with 65536.
  f_equal; [|f_equal]; div_mod_lia.
Qed.

Lemma u32_bytes b :
  [uint8_t (uint16_t (uint32_t b));
   uint8_t (N.shiftr (uint16_t (uint32_t b)) 8);
   uint8_t (uint16_t (N.shiftr (uint32_t b) 16));
   uint8_t (N.shiftr (uint16_t (N.shiftr (uint32_t b) 16)) 8)] = le_bytes 4 b.
Proof.
  unfold uint8_t, uint16_t, uint32_t; simpl. rewrite !N.shiftr_div_pow2.
  change (2 ^ 8) with 256; change (2 ^ 16) with 65536;
    change (2 ^ 32) with 4294967296.
  f_equal; [|f_equal; [|f_equal; [|f_equal]]]; div_mod_lia.
Qed.

Lemma push_back_written a h :
  wf h → end_idx h + N.of_nat (width a) <= 64 →
  ∃ h', push_back a h = Ok h' ∧ wf h' ∧
        end_idx h' = end_idx h + N.of_nat (width a) ∧
        written h' = written h ++ bytes_of a.
Proof.
  intros Hwf Hroom. destruct a as [b|b|b]; simpl in *.
  - destruct (push_back_u8_written (uint8_t b) h) as (h' & ? & ? & ? & ?);
      [done|lia|]. exists h'. split; [done|]. split; [done|]. split; [lia|]. done.
  - destruct (push_back_u16_written (uint16_t b) h) as (h' & ? & ? & ? & Hw);
      [done|lia|]. exists h'. split; [done|]. split; [done|]. split; [lia|].
    rewrite Hw. f_equal. apply u16_bytes.
  - destruct (push_back_u32_written (uint32_t b) h) as (h' & ? & ? & ? & Hw);
      [done|lia|]. exists h'. split; [done|]. split; [done|]. split; [lia|].
    rewrite Hw. f_equal. apply u32_bytes.
Qed.

Lemma push_all_written l h :
  wf h → end_idx h + N.of_nat (total_bytes l) <= 64 →
  ∃ h', push_all l h = Ok h' ∧ wf h' ∧
        end_idx h' = end_idx h + N.of_nat (total_bytes l) ∧
        written h' = written h ++ appended l.
Proof.
  revert h. induction l as [|a l IH]; intros h Hwf Hroom; simpl in *.
  - exists h. split; [done|]. split; [done|]. split; [lia|].
    by rewrite app_nil_r.
  - destruct (push_back_written a h) as (h1 & -> & Hwf1 & He1 & Hw1);
      [done|lia|].
    destruct (IH h1) as (h2 & E2 & Hwf2 & He2 & Hw2); [done|lia|].
    exists h2. simpl. split; [done|]. split; [done|]. split; [lia|].
    rewrite Hw2, Hw1. unfold appended; simpl. by rewrite <-app_assoc.
Qed.

Lemma index_written h i :
  i < end_idx h → index h i = written h !! N.to_nat i.
Proof.
  intros Hi. unfold index, written. symmetry. apply lookup_take_lt. lia.
Qed.

(** C6: from a fresh accumulator, calls of [push_back] of any widths whose
    bytes number at most 64 all succeed; afterwards [size()] is the number
    of bytes appended, and [operator[]] at every index below it returns the
    byte appended at that position. *)
Theorem push_all_roundtrip (garbage : list N) (l : list push_arg) :
  length garbage = 64%nat →
  (total_bytes l ≤ 64)%nat →
  ∃ h, push_all l (fresh garbage) = Ok h ∧
       size h = N.of_nat (total_bytes l) ∧
       length (appended l) = total_bytes l ∧
       ∀ i, i < size h →
            ∃ b, appended l !! N.to_nat i = Some b ∧ index h i = Some b.
Proof.
  intros Hlen Hle.
  destruct (push_all_written l (fresh garbage)) as (h & E & Hwf & He & Hw);
    [done|simpl; lia|].
  exists h. simpl in He, Hw. unfold size.
  split; [done|]. split; [lia|]. split; [apply length_appended|].
  intros i Hi. rewrite index_written by done. rewrite Hw.
  destruct (lookup_lt_is_Some_2 (appended l) (N.to_nat i)) as [b Hb].
  - rewrite length_appended. lia.
  - by exists b.
Qed.

Lemma push_all_roundtrip_witness :
  ∃ h, push_all [U8 17; U32 1430532898; U16 30566; U8 136]
                (fresh (replicate 64 255)) = Ok h ∧
       size h = N.of_nat (total_bytes [U8 17; U32 1430532898; U16 30566; U8 136]) ∧
       length (appended [U8 17; U32 1430532898; U16 30566; U8 136]) =
         total_bytes [U8 17; U32 1430532898; U16 30566; U8 136] ∧
       ∀ i, i < size h →
            ∃ b, appended [U8 17; U32 1430532898; U16 30566; U8 136]
                   !! N.to_nat i = Some b ∧ index h i = Some b.
Proof.
  apply (push_all_roundtrip (replicate 64 255)
           [U8 17; U32 1430532898; U16 30566; U8 136]).
  - reflexivity.
  - vm_compute. lia.
Defined.

(** C7: in a state with room for 4 more bytes, [push_back] of a 32-bit
    value ends in the very state that [push_back] of its low 16 bits
    followed by [push_back] of its high 16 bits ends in; the size has grown
    by 4 and the 4 new bytes are those of the value, least significant
    first. *)
Theorem push_back_u32_two_u16 (x : N) (h : forward_hash) :
  x < 2 ^ 32 →
  wf h →
  end_idx h + 4 <= 64 →
  ∃ h', push_back (U32 x) h = Ok h' ∧
        (h1 ← push_back (U16 (x mod 2 ^ 16)) h;
         push_back (U16 (x / 2 ^ 16)) h1) = Ok h' ∧
        size h' = size h + 4 ∧
        written h' = written h ++
          [x mod 256; x / 2 ^ 8 mod 256; x / 2 ^ 16 mod 256; x / 2 ^ 24 mod 256].
Proof.
  intros Hx Hwf Hroom.
  destruct (push_back_written (U32 x) h) as (h' & E & _ & He & Hw);
    [done|simpl; lia|].
  exists h'. split; [done|]. split.
  - rewrite <-E. simpl. unfold push_back_u32.
    replace (uint16_t (x mod 2 ^ 16)) with (uint16_t (uint32_t x)).
    2:{ unfold uint16_t, uint32_t.
        change (2 ^ 16) with 65536; change (2 ^ 32) with 4294967296.
        div_mod_lia. }
    replace (uint16_t (x / 2 ^ 16))
      with (uint16_t (N.shiftr (uint32_t x) 16)); [done|].
    unfold uint16_t, uint32_t. rewrite N.shiftr_div_pow2.
    change (2 ^ 16) with 65536; change (2 ^ 32) with 4294967296.
    div_mod_lia.
  - split; [unfold size; simpl in He; lia|].
    rewrite Hw. f_equal. unfold bytes_of; simpl.
    change (2 ^ 8) with 256; change (2 ^ 16) with 65536;
      change (2 ^ 24) with 16777216.
    do 2 f_equal. f_equal; [|f_equal]; div_mod_lia.
Qed.

Lemma push_back_u32_two_u16_witness :
  ∃ h', push_back (U32 3735928559) (fresh (replicate 64 0)) = Ok h' ∧
        (h1 ← push_back (U16 (3735928559 mod 2 ^ 16)) (fresh (replicate 64 0));
         push_back (U16 (3735928559 / 2 ^ 16)) h1) = Ok h' ∧
        size h' = size (fresh (replicate 64 0)) + 4 ∧
        written h' = written (fresh (replicate 64 0)) ++
          [3735928559 mod 256; 3735928559 / 2 ^ 8 mod 256;
           3735928559 / 2 ^ 16 mod 256; 3735928559 / 2 ^ 24 mod 256].
Proof.
  apply (push_back_u32_two_u16 3735928559 (fresh (replicate 64 0))).
  - reflexivity.
  - reflexivity.
  - vm_compute. discriminate.
Defined.

(** C8: a [push_back] whose bytes would bring the total past 64 fails on
    the assertion; one whose bytes fit succeeds and the size grows by all
    of its bytes. *)
Theorem push_back_capacity (a : push_arg) (h : forward_hash) :
  (64 < end_idx h + N.of_nat (width a) → push_back a h = AssertionFailed) ∧
  (end_idx h + N.of_nat (width a) <= 64 →
   ∃ h', push_back a h = Ok h' ∧ size h' = size h + N.of_nat (width a)).
Proof.
  split.
  - intros Hover.
    assert (Hstep : ∀ b g, end_idx g < 64 →
              ∃ g', push_back_u8 b g = Ok g' ∧ end_idx g' = end_idx g + 1).
    { intros b g Hg. eexists. split; [by apply push_back_u8_room|done]. }
    assert (Hstop : ∀ b g, 64 <= end_idx g → push_back_u8 b g = AssertionFailed).
    { intros b g Hg. by apply push_back_u8_full. }
    destruct a as [b|b|b]; simpl in *.
    + apply Hstop. lia.
    + unfold push_back_u16.
      destruct (N.lt_ge_cases (end_idx h) 64) as [Hlt|Hge].
      * destruct (Hstep (uint8_t (uint16_t b)) h Hlt) as (h1 & -> & E1). simpl.
        apply Hstop. lia.
      * by rewrite Hstop.
    + unfold push_back_u32, push_back_u16.
      destruct (N.lt_ge_cases (end_idx h) 64) as [Hlt|Hge];
        [|by rewrite Hstop].
      destruct (Hstep (uint8_t (uint16_t (uint32_t b))) h Hlt) as (h1 & -> & E1).
      simpl.
      destruct (N.lt_ge_cases (end_idx h1) 64) as [Hlt1|Hge1];
        [|by rewrite Hstop].
      destruct (Hstep (uint8_t (N.shiftr (uint16_t (uint32_t b)) 8)) h1 Hlt1)
        as (h2 & -> & E2).
      simpl.
      destruct (N.lt_ge_cases (end_idx h2) 64) as [Hlt2|Hge2];
        [|by rewrite Hstop].
      destruct (Hstep (uint8_t (uint16_t (N.shiftr (uint32_t b) 16))) h2 Hlt2)
        as (h3 & -> & E3).
      simpl. apply Hstop. lia.
  - intros Hfit.
    assert (Hstep : ∀ b g, end_idx g < 64 →
              ∃ g', push_back_u8 b g = Ok g' ∧ end_idx g' = end_idx g + 1).
    { intros b g Hg. eexists. split; [by apply push_back_u8_room|done]. }
    unfold size. destruct a as [b|b|b]; simpl in *.
    + destruct (Hstep (uint8_t b) h) as (h1 & -> & E1); [lia|]. by exists h1.
    + unfold push_back_u16.
      destruct (Hstep (uint8_t (uint16_t b)) h) as (h1 & -> & E1); [lia|].
      simpl.
      destruct (Hstep (uint8_t (N.shiftr (uint16_t b) 8)) h1)
        as (h2 & -> & E2); [lia|].
      exists h2. split; [done|lia].
    + unfold push_back_u32, push_back_u16.
      destruct (Hstep (uint8_t (uint16_t (uint32_t b))) h)
        as (h1 & -> & E1); [lia|].
      simpl.
      destruct (Hstep (uint8_t (N.shiftr (uint16_t (uint32_t b)) 8)) h1)
        as (h2 & -> & E2); [lia|].
      simpl.
      destruct (Hstep (uint8_t (uint16_t (N.shiftr (uint32_t b) 16))) h2)
        as (h3 & -> & E3); [lia|].
      simpl.
      destruct (Hstep
                  (uint8_t (N.shiftr (uint16_t (N.shiftr (uint32_t b) 16)) 8)) h3)
        as (h4 & -> & E4); [lia|].
      exists h4. split; [done|lia].
Qed.

End ForwardHashFacts.

(** ** The queue pair *)

Section queue_pair_facts.

Context {packet W : Type}.
Implicit Types (q : qp packet W) (w : W) (pr : packet_provider packet W).
Implicit Types (prs : list (packet_provider packet W)) (s : qp packet W * W).

(** *** [add_proxy] *)

Lemma add_proxy_all_snoc cpus cpu q :
  add_proxy_all (cpus ++ [cpu]) q = add_proxy cpu (add_proxy_all cpus q).
Proof. unfold add_proxy_all. by rewrite fold_left_app. Qed.

Lemma add_proxy_fields cpu q :
  proxies (add_proxy cpu q) = proxies q ++ [cpu] ∧
  _pkt_providers (add_proxy cpu q) =
    (if may_forward q then _pkt_providers q
     else _pkt_providers q ++ [proxy_provider]).
Proof. unfold add_proxy. by destruct (may_forward q). Qed.

(** C4: on a new queue pair, [n >= 1] calls of [add_proxy] and nothing
    else leave exactly one provider registered, the one that drains the
    proxy queue, and the [n] cores in [proxies], in the order of the
    calls. *)
Theorem add_proxy_registers_once (cpus : list N) :
  (1 ≤ length cpus)%nat →
  _pkt_providers (add_proxy_all cpus (@qp_new packet W)) = [proxy_provider] ∧
  length (_pkt_providers (add_proxy_all cpus (@qp_new packet W))) = 1%nat ∧
  proxies (add_proxy_all cpus (@qp_new packet W)) = cpus ∧
  length (proxies (add_proxy_all cpus (@qp_new packet W))) = length cpus.
Proof.
  induction cpus as [|cpu cpus IH] using rev_ind; [simpl; lia|].
  intros _. rewrite add_proxy_all_snoc.
  destruct (add_proxy_fields cpu (add_proxy_all cpus (@qp_new packet W)))
    as [Hp Hr].
  rewrite Hp, Hr. destruct cpus as [|c cpus'].
  - done.
  - destruct IH as (IH1 & _ & IH2 & _); [simpl; lia|].
    unfold may_forward. rewrite IH1, IH2. by rewrite length_app.
Qed.

(** *** The proxy queue *)

Lemma proxy_send_all_fields ps q :
  proxy_send_all ps q = set_proxy_packetq (_proxy_packetq q ++ ps) q.
Proof.
  revert q. induction ps as [|p ps IH]; intros q; simpl.
  - rewrite app_nil_r. by destruct q.
  - unfold proxy_send_all in *; simpl. rewrite IH. unfold proxy_send; simpl.
    unfold set_proxy_packetq; simpl. by rewrite <-app_assoc.
Qed.

Lemma call_n_proxy_empty k q w :
  _proxy_packetq q = [] →
  call_n proxy_provider k q w = (replicate k None, q, w).
Proof.
  intros Hq. induction k as [|k IH]; [done|].
  simpl. unfold proxy_drain. rewrite Hq. by rewrite IH.
Qed.

Lemma call_n_proxy_drain k q w :
  call_n proxy_provider (length (_proxy_packetq q) + k) q w =
    (map Some (_proxy_packetq q) ++ replicate k None,
     set_proxy_packetq [] q, w).
Proof.
  remember (_proxy_packetq q) as l eqn:Hl. revert q Hl.
  induction l as [|p l IH]; intros q Hl.
  - simpl. rewrite call_n_proxy_empty by done. do 2 f_equal.
    destruct q; simpl in *; by subst.
  - simpl. unfold proxy_drain. rewrite <-Hl.
    rewrite (IH (set_proxy_packetq l q)) by done. done.
Qed.

(** C5: after packets [ps] went into an empty proxy queue by [proxy_send],
    in that order, the provider that [add_proxy] installs returns them one
    per call in the same order, and nothing on every call after the last
    of them; the queue pair is then as it was before the packets came. *)
Theorem proxy_queue_fifo (ps : list packet) (k : nat) q w :
  _proxy_packetq q = [] →
  call_n proxy_provider (length ps + k) (proxy_send_all ps q) w =
    (map Some ps ++ replicate k None, q, w).
Proof.
  intros Hq. rewrite proxy_send_all_fields, Hq. simpl.
  pose proof (call_n_proxy_drain k (set_proxy_packetq ps q) w) as H.
  simpl in H. rewrite H. do 2 f_equal.
  destruct q; simpl in *; by subst.
Qed.

(** *** The refill of [poll_tx] *)

Lemma call_provider_keeps pr q w :
  _tx_packetq (call_provider pr q w).1.2 = _tx_packetq q ∧
  _pkt_providers (call_provider pr q w).1.2 = _pkt_providers q.
Proof.
  destruct pr as [|f]; simpl.
  - unfold proxy_drain. by destruct (_proxy_packetq q).
  - by destruct (f w).
Qed.

(** A provider asked adds one packet to the batch or none, and leaves the
    list of providers alone. *)
Lemma ask_tx_size s pr :
  (tx_size (ask s pr).1 = tx_size s.1 ∨ tx_size (ask s pr).1 = tx_size s.1 + 1) ∧
  _pkt_providers (ask s pr).1 = _pkt_providers s.1.
Proof.
  unfold ask. destruct (call_provider_keeps pr s.1 s.2) as [Ht Hp].
  destruct (call_provider pr s.1 s.2) as [[[pk|] q1] w1]; simpl in *.
  - unfold tx_size; simpl. rewrite length_app, Ht; simpl. split; [right; lia|done].
  - unfold tx_size. rewrite Ht. by split; [left|].
Qed.

Lemma ask_all_snoc prs pr s : ask_all (prs ++ [pr]) s = ask (ask_all prs s) pr.
Proof. unfold ask_all. by rewrite fold_left_app. Qed.

Lemma ask_all_tx_size prs s :
  tx_size s.1 <= tx_size (ask_all prs s).1 ∧
  _pkt_providers (ask_all prs s).1 = _pkt_providers s.1.
Proof.
  induction prs as [|pr prs IH] using rev_ind; [by split|].
  rewrite ask_all_snoc. destruct (ask_tx_size (ask_all prs s) pr) as [Hs Hp].
  destruct IH as [IHs IHp]. split; [lia|congruence].
Qed.

(** One [for] loop: the providers asked are a front part of the list, in
    its order; either all were asked and the batch is below 128, or the
    last one asked brought the batch to 128.  [work] counts the packets
    that joined the batch. *)
Lemma poll_tx_for_spec prs work q w :
  tx_size q < 128 →
  work < 2 ^ 32 →
  ∃ asked rest d,
    prs = asked ++ rest ∧
    poll_tx_for prs work q w =
      (uint32_t (work + d), (ask_all asked (q, w)).1, (ask_all asked (q, w)).2) ∧
    tx_size (ask_all asked (q, w)).1 = tx_size q + d ∧
    ((rest = [] ∧ tx_size (ask_all asked (q, w)).1 < 128) ∨
     (tx_size (ask_all asked (q, w)).1 = 128 ∧
      ∃ asked0 pr, asked = asked0 ++ [pr] ∧
                   tx_size (ask_all asked0 (q, w)).1 < 128)).
Proof.
  revert work q w. induction prs as [|pr prs IH]; intros work q w Hq Hwork.
  - exists [], [], 0. simpl. split; [done|]. split.
    + unfold uint32_t. rewrite N.add_0_r, N.mod_small; done.
    + split; [lia|]. by left.
  - simpl. pose proof (ask_tx_size (q, w) pr) as [Hs _].
    unfold ask in Hs; simpl in Hs.
    destruct (call_provider pr q w) as [[[pk|] q1] w1] eqn:Ecall; simpl in Hs.
    + assert (Hs1 : tx_size (set_tx_packetq (_tx_packetq q1 ++ [pk]) q1)
                    = tx_size q + 1).
      { destruct Hs as [Hs|Hs]; [|done].
        pose proof (call_provider_keeps pr q w) as [Ht _].
        rewrite Ecall in Ht; simpl in Ht.
        unfold tx_size in *; simpl in *. rewrite length_app, Ht in *.
        simpl in *. lia. }
      destruct (N.eqb_spec (tx_size (set_tx_packetq (_tx_packetq q1 ++ [pk]) q1))
                  128) as [Hcap|Hno].
      * exists [pr], prs, 1. unfold ask_all; simpl. unfold ask; simpl.
        rewrite Ecall; simpl. split; [done|]. split; [done|].
        split; [done|]. right. split; [done|].
        exists [], pr. by split.
      * destruct (IH (uint32_t (work + 1))
                    (set_tx_packetq (_tx_packetq q1 ++ [pk]) q1) w1)
          as (asked & rest & d & -> & E & Hd & Hend);
          [lia|unfold uint32_t; apply N.mod_lt; done|].
        assert (Hask : ∀ l, ask_all (pr :: l) (q, w) =
                  ask_all l (set_tx_packetq (_tx_packetq q1 ++ [pk]) q1, w1)).
        { intros l. unfold ask_all; simpl. unfold ask at 2; simpl.
          by rewrite Ecall. }
        exists (pr :: asked), rest, (1 + d). rewrite !Hask.
        split; [done|]. split.
        { rewrite E. do 2 f_equal. unfold uint32_t.
          change (2 ^ 32) with 4294967296. div_mod_lia. }
        split; [lia|].
        destruct Hend as [Hend|(Hcap & asked0 & pr0 & -> & Hlt)]; [by left|].
        right. split; [done|]. exists (pr :: asked0), pr0.
        split; [done|]. by rewrite Hask.
    + assert (Hs1 : tx_size q1 = tx_size q).
      { pose proof (call_provider_keeps pr q w) as [Ht _].
        rewrite Ecall in Ht; simpl in Ht. unfold tx_size. by rewrite Ht. }
      destruct (IH work q1 w1) as (asked & rest & d & -> & E & Hd & Hend);
        [lia|done|].
      assert (Hask : ∀ l, ask_all (pr :: l) (q, w) = ask_all l (q1, w1)).
      { intros l. unfold ask_all; simpl. unfold ask at 2; simpl.
        by rewrite Ecall. }
      exists (pr :: asked), rest, d. rewrite !Hask.
      split; [done|]. split; [done|]. split; [lia|].
      destruct Hend as [Hend|(Hcap & asked0 & pr0 & -> & Hlt)]; [by left|].
      right. split; [done|]. exists (pr :: asked0), pr0.
      split; [done|]. by rewrite Hask.
Qed.

(** The [do ... while] loop ends within [129 - size] passes, in a state
    that the refill of the specification reaches, with at most 128 packets
    in the batch. *)
Lemma poll_tx_refill_spec fuel q w :
  tx_size q < 128 →
  (128 - N.to_nat (tx_size q) < fuel)%nat →
  ∃ s', poll_tx_refill fuel q w = Some s' ∧
        refill_run (_pkt_providers q) (q, w) s' ∧
        tx_size s'.1 <= 128.
Proof.
  revert q w. induction fuel as [|fuel IH]; intros q w Hq Hfuel; [lia|].
  simpl.
  destruct (poll_tx_for_spec (_pkt_providers q) 0 q w)
    as (asked & rest & d & Hprs & E & Hd & Hend); [done|done|].
  rewrite E. clear E. set (s1 := ask_all asked (q, w)) in *.
  assert (Hwork : uint32_t (0 + d) = d).
  { unfold uint32_t. apply N.mod_small.
    assert (tx_size s1.1 <= 128) by (destruct Hend as [[_ ?]|[? _]]; lia).
    change (2 ^ 32) with 4294967296. lia. }
  rewrite Hwork.
  destruct Hend as [[-> Hlt]|(Hcap & asked0 & pr & -> & Hlt)].
  - rewrite app_nil_r in Hprs. subst asked.
    destruct (N.ltb_spec (tx_size s1.1) 128) as [_|?]; [|lia].
    destruct (N.eqb_spec d 0) as [->|Hd0]; simpl.
    + exists s1. split; [by destruct s1|]. split; [|lia].
      apply refill_idle; [fold s1; simpl; lia|done].
    + destruct (IH s1.1 s1.2) as (s' & E' & Hrun & Hs'); [done|lia|].
      exists s'. split; [done|]. split; [|done].
      apply refill_more; fold s1; simpl; [lia|done|].
      destruct (ask_all_tx_size (_pkt_providers q) (q, w)) as [_ Hp].
      fold s1 in Hp; simpl in Hp. rewrite <-Hp. by destruct s1.
  - destruct (N.ltb_spec (tx_size s1.1) 128) as [?|_]; [lia|].
    rewrite andb_false_r. exists s1. split; [by destruct s1|]. split; [|lia].
    subst s1. rewrite <-app_assoc in Hprs. simpl in Hprs.
    by eapply refill_cap.
Qed.

End queue_pair_facts.

Section poll_tx_facts.

Context {packet W : Type}.
Variable send : list packet → W → N * list packet * W.
Implicit Types (q : qp packet W) (w : W) (pr : packet_provider packet W).

(** C1: one call of [poll_tx].  With 16 packets or more in the batch the
    providers are not asked.  With fewer the refill runs as [refill_run]
    says: the providers are asked in registration order, one packet each
    per pass, until a complete pass adds nothing or the batch has 128
    packets, which it never exceeds.  Then a batch that is not empty goes
    to [send] as a whole and the call returns true, and with an empty one
    the call returns false and changes nothing else. *)
Theorem poll_tx_spec (fuel : nat) q w :
  (129 ≤ fuel)%nat →
  ∃ q1 w1,
    (tx_size q < 16 →
     refill_run (_pkt_providers q) (q, w) (q1, w1) ∧ tx_size q1 <= 128) ∧
    (16 <= tx_size q → q1 = q ∧ w1 = w) ∧
    match _tx_packetq q1 with
    | [] => poll_tx send fuel q w = Some (false, q1, w1)
    | _ :: _ =>
        ∃ n remaining w2,
          send (_tx_packetq q1) w1 = (n, remaining, w2) ∧
          poll_tx send fuel q w =
            Some (true,
                  mk_qp (_pkt_providers q1) (proxies q1) (_proxy_packetq q1)
                        remaining (uint64_t (_packets_snt q1 + uint32_t n))
                        (_packets_rcv q1) (uint32_t n) (_last_rx_bunch q1),
                  w2)
    end.
Proof.
  intros Hfuel. unfold poll_tx.
  assert (Hsend : ∀ q1 w1,
    match _tx_packetq q1 with
    | [] => poll_tx_send send q1 w1 = (false, q1, w1)
    | _ :: _ =>
        ∃ n remaining w2,
          send (_tx_packetq q1) w1 = (n, remaining, w2) ∧
          poll_tx_send send q1 w1 =
            (true,
             mk_qp (_pkt_providers q1) (proxies q1) (_proxy_packetq q1)
                   remaining (uint64_t (_packets_snt q1 + uint32_t n))
                   (_packets_rcv q1) (uint32_t n) (_last_rx_bunch q1),
             w2)
    end).
  { intros q1 w1. unfold poll_tx_send.
    destruct (_tx_packetq q1) as [|p l]; [done|].
    destruct (send (p :: l) w1) as [[n remaining] w2]. by exists n, remaining, w2. }
  destruct (N.ltb_spec (tx_size q) 16) as [Hlow|Hhigh].
  - destruct (poll_tx_refill_spec fuel q w) as ([q1 w1] & -> & Hrun & Hcap);
      [lia|lia|].
    exists q1, w1. split; [done|]. split; [lia|]. simpl.
    specialize (Hsend q1 w1). destruct (_tx_packetq q1).
    + by rewrite Hsend.
    + destruct Hsend as (n & remaining & w2 & Es & ->). by exists n, remaining, w2.
  - exists q, w. split; [lia|]. split; [done|]. simpl.
    specialize (Hsend q w). destruct (_tx_packetq q).
    + by rewrite Hsend.
    + destruct Hsend as (n & remaining & w2 & Es & ->). by exists n, remaining, w2.
Qed.

(** *** The counters *)

Lemma call_provider_counters pr q w :
  _packets_snt (call_provider pr q w).1.2 = _packets_snt q ∧
  _packets_rcv (call_provider pr q w).1.2 = _packets_rcv q.
Proof.
  destruct pr as [|f]; simpl.
  - unfold proxy_drain. by destruct (_proxy_packetq q).
  - by destruct (f w).
Qed.

Lemma poll_tx_for_counters prs work q w :
  _packets_snt (poll_tx_for prs work q w).1.2 = _packets_snt q ∧
  _packets_rcv (poll_tx_for prs work q w).1.2 = _packets_rcv q.
Proof.
  revert work q w. induction prs as [|pr prs IH]; intros work q w; [done|].
  simpl. pose proof (call_provider_counters pr q w) as [Hs Hr].
  destruct (call_provider pr q w) as [[[pk|] q1] w1]; simpl in *.
  - destruct (tx_size _ =? 128); [done|].
    destruct (IH (uint32_t (work + 1))
                (set_tx_packetq (_tx_packetq q1 ++ [pk]) q1) w1) as [-> ->].
    done.
  - destruct (IH work q1 w1) as [-> ->]. done.
Qed.

Lemma poll_tx_refill_counters fuel q w s' :
  poll_tx_refill fuel q w = Some s' →
  _packets_snt s'.1 = _packets_snt q ∧ _packets_rcv s'.1 = _packets_rcv q.
Proof.
  revert q w. induction fuel as [|fuel IH]; intros q w E; [done|].
  simpl in E. pose proof (poll_tx_for_counters (_pkt_providers q) 0 q w) as [Hs Hr].
  destruct (poll_tx_for (_pkt_providers q) 0 q w) as [[work q1] w1]; simpl in *.
  destruct (negb (work =? 0) && (tx_size q1 <? 128)).
  - destruct (IH _ _ E) as [-> ->]. done.
  - by inversion E; subst.
Qed.

(** C10, as the code has it.  [update_rx_count(count)] sets the counter
    of received packets to the old value plus [count] modulo [2^64] and
    leaves the counter of sent packets alone.  [poll_tx] leaves the counter
    of received packets alone; when the batch it has after the refill is
    empty it leaves the counter of sent packets alone too, and otherwise it
    sets it to the old value plus [n] modulo [2^64], [n] being the count
    that [send] returned for that batch, which it also stores in
    [_last_tx_bunch].  No other call changes either counter.  So a counter
    does not decrease across a call as long as that addition stays below
    [2^64]. *)
Theorem counters_add_modulo (fuel : nat) (c : qp_call packet W) q w :
  (129 ≤ fuel)%nat →
  ∃ q' w',
    run_call send fuel c q w = Some (q', w') ∧
    match c with
    | call_update_rx_count count =>
        _packets_rcv q' = (_packets_rcv q + count) mod 2 ^ 64 ∧
        _packets_snt q' = _packets_snt q ∧
        (_packets_rcv q + count < 2 ^ 64 → _packets_rcv q <= _packets_rcv q')
    | call_poll_tx =>
        _packets_rcv q' = _packets_rcv q ∧
        ∃ q1 w1,
          (if tx_size q <? 16 then poll_tx_refill fuel q w else Some (q, w))
            = Some (q1, w1) ∧
          match _tx_packetq q1 with
          | [] => _packets_snt q' = _packets_snt q
          | _ :: _ =>
              let n := uint32_t (send (_tx_packetq q1) w1).1.1 in
              _last_tx_bunch q' = n ∧
              _packets_snt q' = (_packets_snt q + n) mod 2 ^ 64 ∧
              (_packets_snt q + n < 2 ^ 64 → _packets_snt q <= _packets_snt q')
          end
    | _ =>
        _packets_rcv q' = _packets_rcv q ∧ _packets_snt q' = _packets_snt q
    end.
Proof.
  intros Hfuel. destruct c as [count|cpu|p|func|]; simpl.
  - eexists _, _. split; [done|]. simpl. split; [done|]. split; [done|].
    intros Hno. unfold uint64_t. rewrite N.mod_small; [lia|done].
  - eexists _, _. split; [done|].
    unfold add_proxy; by destruct (may_forward q).
  - by eexists _, _.
  - by eexists _, _.
  - unfold poll_tx.
    assert (∃ q1 w1,
      (if tx_size q <? 16 then poll_tx_refill fuel q w else Some (q, w))
        = Some (q1, w1) ∧
      _packets_snt q1 = _packets_snt q ∧ _packets_rcv q1 = _packets_rcv q)
      as (q1 & w1 & Er & Hs & Hr).
    { destruct (N.ltb_spec (tx_size q) 16).
      - destruct (poll_tx_refill_spec fuel q w) as ([q1 w1] & E & _);
          [lia|lia|].
        destruct (poll_tx_refill_counters _ _ _ _ E) as [Hs Hr].
        by exists q1, w1.
      - by exists q, w. }
    rewrite Er. simpl. unfold poll_tx_send.
    destruct (_tx_packetq q1) as [|p l] eqn:Et.
    + simpl. exists q1, w1. split; [done|]. split; [done|].
      exists q1, w1. split; [done|]. by rewrite Et.
    + destruct (send (p :: l) w1) as [[n remaining] w2] eqn:Es. simpl.
      eexists _, _. split; [done|]. simpl. split; [done|].
      exists q1, w1. split; [done|]. rewrite Et, Es. simpl.
      split; [done|]. rewrite Hs. split; [done|].
      intros Hno. unfold uint64_t. rewrite N.mod_small; [lia|done].
Qed.

End poll_tx_facts.

(** ** The device *)

Section device_facts.

Context {packet W : Type}.
Implicit Types (q : qp packet W) (d : device packet W).

Lemma forward_dst_local d src hashfn q :
  queue_for_cpu d src = Ok q →
  proxies q = [] →
  forward_dst d src hashfn = Ok src.
Proof.
  intros Eq Hp. unfold forward_dst. rewrite Eq. simpl.
  unfold may_forward. by rewrite Hp.
Qed.

Lemma forward_dst_forward d src hashfn q :
  queue_for_cpu d src = Ok q →
  proxies q ≠ [] →
  _rss_table_bits d < 32 →
  forward_dst d src hashfn =
    let idx := N.shiftr (hashfn tt) (_rss_table_bits d)
               mod (N.of_nat (length (proxies q)) + 1) in
    if idx =? 0 then Ok src
    else match proxies q !! N.to_nat (idx - 1) with
         | Some cpu => Ok cpu
         | None => Undefined
         end.
Proof.
  intros Eq Hp Hbits. unfold forward_dst. rewrite Eq. simpl.
  unfold may_forward. destruct (proxies q) as [|c l] eqn:E; [done|]. simpl.
  destruct (N.leb_spec 32 (_rss_table_bits d)); [lia|done].
Qed.

(** C2: when the queue pair that the hash selects has proxies, [hash2cpu]
    takes the index [(hash >> rss_table_bits) mod (number of proxies + 1)];
    at index 0 it returns the originating core, the one [hash2qid] picked,
    and at an index [k >= 1] it returns [proxies[k-1]], which exists. *)
Theorem hash2cpu_index d (hash src : N) q :
  hash2qid d hash = Ok src →
  queue_for_cpu d src = Ok q →
  proxies q ≠ [] →
  _rss_table_bits d < 32 →
  forward_index d q hash < N.of_nat (length (proxies q)) + 1 ∧
  (forward_index d q hash = 0 → hash2cpu d hash = Ok src) ∧
  (1 <= forward_index d q hash →
   ∃ cpu, proxies q !! N.to_nat (forward_index d q hash - 1) = Some cpu ∧
          hash2cpu d hash = Ok cpu).
Proof.
  intros Eqid Eq Hp Hbits. unfold hash2cpu. rewrite Eqid. simpl.
  rewrite (forward_dst_forward d src _ q) by done. simpl.
  fold (forward_index d q hash).
  assert (Hlt : forward_index d q hash < N.of_nat (length (proxies q)) + 1).
  { unfold forward_index. apply N.mod_lt. lia. }
  split; [done|]. split.
  - intros ->. done.
  - intros Hk. destruct (N.eqb_spec (forward_index d q hash) 0) as [?|_]; [lia|].
    destruct (lookup_lt_is_Some_2 (proxies q)
                (N.to_nat (forward_index d q hash - 1))) as [cpu Hcpu]; [lia|].
    exists cpu. by rewrite Hcpu.
Qed.

(** With proxies [[A; B]]: index 0 is the originating core, 1 is [A] and 2
    is [B], and there is no other index. *)
Lemma hash2cpu_two_proxies d (hash src A B : N) q :
  hash2qid d hash = Ok src →
  queue_for_cpu d src = Ok q →
  proxies q = [A; B] →
  _rss_table_bits d < 32 →
  (forward_index d q hash = 0 ∧ hash2cpu d hash = Ok src) ∨
  (forward_index d q hash = 1 ∧ hash2cpu d hash = Ok A) ∨
  (forward_index d q hash = 2 ∧ hash2cpu d hash = Ok B).
Proof.
  intros Eqid Eq Hp Hbits. unfold hash2cpu. rewrite Eqid. simpl.
  rewrite (forward_dst_forward d src _ q); [|done|by rewrite Hp|done].
  simpl. fold (forward_index d q hash).
  assert (Hlt : forward_index d q hash < 3).
  { unfold forward_index. rewrite Hp. simpl. apply N.mod_lt. lia. }
  rewrite Hp. remember (forward_index d q hash) as idx eqn:Hidx. clear Hidx.
  destruct (N.eq_dec idx 0) as [->|N0]; [by left|].
  destruct (N.eq_dec idx 1) as [->|N1]; [by right; left|].
  assert (idx = 2) as -> by lia. by right; right.
Qed.

(** C3: when the queue pair that the hash selects has no proxy, [hash2cpu]
    returns the originating core, the one [hash2qid] picked, whatever
    [_rss_table_bits] is: neither the shift nor the modulo takes place. *)
Theorem hash2cpu_no_proxies d (hash src : N) q :
  hash2qid d hash = Ok src →
  queue_for_cpu d src = Ok q →
  proxies q = [] →
  hash2cpu d hash = Ok src.
Proof.
  intros Eqid Eq Hp. unfold hash2cpu. rewrite Eqid. simpl.
  by apply (forward_dst_local d src _ q).
Qed.

(** C9: [set_local_queue] on a core whose slot is empty puts the queue
    pair into that slot and changes no other slot; on a core whose slot is
    occupied it fails on the assertion. *)
Theorem set_local_queue_once (cpu_id : N) (dev : qp packet W) d :
  (_queues d !! N.to_nat cpu_id = Some None →
   ∃ d', set_local_queue cpu_id dev d = Ok d' ∧
         queue_for_cpu d' cpu_id = Ok dev ∧
         length (_queues d') = length (_queues d) ∧
         ∀ cpu, cpu ≠ cpu_id →
                _queues d' !! N.to_nat cpu = _queues d !! N.to_nat cpu) ∧
  (∀ old, _queues d !! N.to_nat cpu_id = Some (Some old) →
          set_local_queue cpu_id dev d = AssertionFailed).
Proof.
  split.
  - intros Hslot. unfold set_local_queue. rewrite Hslot. simpl.
    eexists. split; [done|]. unfold queue_for_cpu. simpl.
    rewrite list_lookup_insert_eq by (by eapply lookup_lt_Some).
    split; [done|]. split; [by rewrite length_insert|].
    intros cpu Hne. apply list_lookup_insert_ne. lia.
  - intros old Hslot. unfold set_local_queue. by rewrite Hslot.
Qed.

(** Right after construction every slot is empty, so the first
    installation on a core works and a second one on it fails. *)
Lemma set_local_queue_twice (smp_count : nat) (hw_queues cpu_id : N)
    (dev dev' : qp packet W) :
  (N.to_nat cpu_id < smp_count)%nat →
  ∃ d', set_local_queue cpu_id dev (device_new smp_count hw_queues) = Ok d' ∧
        set_local_queue cpu_id dev' d' = AssertionFailed.
Proof.
  intros Hcpu. unfold set_local_queue at 1. simpl.
  rewrite lookup_replicate_2 by done. simpl.
  eexists. split; [done|]. unfold set_local_queue. simpl.
  rewrite list_lookup_insert_eq by (rewrite length_replicate; lia). done.
Qed.

End device_facts.

(** ** The definitions at work *)

Module DemoFacts.
Import Demo.

(** Two providers with 3 and 2 packets: one call of [poll_tx] sends the 5
    of them, taken in turn from the two, and counts them. *)
Example poll_tx_interleaves :
  ∃ q', poll_tx send_all 129 qp_ab (mk_world [1; 3; 5] [2; 4] []) =
          Some (true, q', mk_world [] [] [1; 2; 3; 4; 5]) ∧
        _tx_packetq q' = [] ∧ _packets_snt q' = 5 ∧ _last_tx_bunch q' = 5.
Proof. eexists. split; [vm_compute; reflexivity|]. by vm_compute. Qed.

(** Nothing to send: the call returns false and changes nothing. *)
Example poll_tx_idle :
  poll_tx send_all 129 qp_ab (mk_world [] [] []) =
    Some (false, qp_ab, mk_world [] [] []).
Proof. vm_compute. reflexivity. Qed.

(** 200 packets on offer: the batch stops at 128, 64 from each provider. *)
Example poll_tx_cap :
  ∃ q', poll_tx send_all 129 qp_ab
          (mk_world (count_from 0 100) (count_from 1000 100) []) =
          Some (true, q',
                mk_world (count_from 64 36) (count_from 1064 36)
                  (flat_map (λ i, [i; 1000 + i]) (count_from 0 64))) ∧
        _packets_snt q' = 128.
Proof. eexists. split; [vm_compute; reflexivity|]. by vm_compute. Qed.

(** 20 packets left in the batch by a backend that sent none: the next
    call asks no provider. *)
Example poll_tx_no_refill :
  ∃ q1 w1 q2,
    poll_tx send_none 129 qp_ab
      (mk_world (count_from 0 10) (count_from 1000 10) []) = Some (true, q1, w1) ∧
    tx_size q1 = 20 ∧
    poll_tx send_none 129 q1 (mk_world [7; 7; 7] [] []) =
      Some (true, q2, mk_world [7; 7; 7] [] []) ∧
    tx_size q2 = 20.
Proof.
  eexists _, _, _. split; [vm_compute; reflexivity|].
  split; [by vm_compute|]. split; [vm_compute; reflexivity|]. by vm_compute.
Qed.

Lemma poll_tx_spec_witness :
  ∃ q1 w1,
    (tx_size qp_ab < 16 →
     refill_run (_pkt_providers qp_ab) (qp_ab, mk_world [1; 3; 5] [2; 4] [])
       (q1, w1) ∧ tx_size q1 <= 128) ∧
    (16 <= tx_size qp_ab → q1 = qp_ab ∧ w1 = mk_world [1; 3; 5] [2; 4] []) ∧
    match _tx_packetq q1 with
    | [] => poll_tx send_all 129 qp_ab (mk_world [1; 3; 5] [2; 4] []) =
              Some (false, q1, w1)
    | _ :: _ =>
        ∃ n remaining w2,
          send_all (_tx_packetq q1) w1 = (n, remaining, w2) ∧
          poll_tx send_all 129 qp_ab (mk_world [1; 3; 5] [2; 4] []) =
            Some (true,
                  mk_qp (_pkt_providers q1) (proxies q1) (_proxy_packetq q1)
                        remaining (uint64_t (_packets_snt q1 + uint32_t n))
                        (_packets_rcv q1) (uint32_t n) (_last_rx_bunch q1),
                  w2)
    end.
Proof.
  apply (poll_tx_spec send_all 129 qp_ab (mk_world [1; 3; 5] [2; 4] [])).
  lia.
Defined.

Lemma add_proxy_registers_once_witness :
  _pkt_providers (add_proxy_all [1; 2; 3] (@qp_new N world)) = [proxy_provider] ∧
  length (_pkt_providers (add_proxy_all [1; 2; 3] (@qp_new N world))) = 1%nat ∧
  proxies (add_proxy_all [1; 2; 3] (@qp_new N world)) = [1; 2; 3] ∧
  length (proxies (add_proxy_all [1; 2; 3] (@qp_new N world))) =
    length [1; 2; 3].
Proof.
  apply (@add_proxy_registers_once N world [1; 2; 3]). simpl. lia.
Defined.

Lemma proxy_queue_fifo_witness :
  call_n proxy_provider (length [10; 20; 30] + 2)
    (proxy_send_all [10; 20; 30] (add_proxy 1 (@qp_new N world)))
    (mk_world [] [] []) =
  (map Some [10; 20; 30] ++ replicate 2 None,
   add_proxy 1 (@qp_new N world), mk_world [] [] []).
Proof.
  apply (proxy_queue_fifo [10; 20; 30] 2 (add_proxy 1 (@qp_new N world))
           (mk_world [] [] [])).
  reflexivity.
Defined.

(** The proxy provider inside [poll_tx]: forwarded packets leave in the
    order they came. *)
Example poll_tx_drains_proxy_queue :
  ∃ q', poll_tx send_all 129
          (proxy_send_all [10; 20; 30] (add_proxy 1 qp_new))
          (mk_world [] [] []) =
          Some (true, q', mk_world [] [] [10; 20; 30]) ∧
        _proxy_packetq q' = [].
Proof. eexists. split; [vm_compute; reflexivity|]. by vm_compute. Qed.

Lemma push_back_capacity_witness :
  ForwardHash.push_back (ForwardHash.U16 513)
    (ForwardHash.mk (replicate 64 0) 63) = AssertionFailed ∧
  ∃ h', ForwardHash.push_back (ForwardHash.U16 513)
          (ForwardHash.mk (replicate 64 0) 62) = Ok h' ∧
        ForwardHash.size h' =
          ForwardHash.size (ForwardHash.mk (replicate 64 0) 62) +
          N.of_nat (ForwardHash.width (ForwardHash.U16 513)).
Proof.
  split.
  - apply (proj1 (ForwardHashFacts.push_back_capacity (ForwardHash.U16 513)
                    (ForwardHash.mk (replicate 64 0) 63))).
    reflexivity.
  - apply (proj2 (ForwardHashFacts.push_back_capacity (ForwardHash.U16 513)
                    (ForwardHash.mk (replicate 64 0) 62))).
    vm_compute. discriminate.
Defined.

(** 64 single bytes fit and the 65th fails. *)
Example push_back_65th :
  ∃ h, ForwardHash.push_all (map ForwardHash.U8 (count_from 0 64))
         (ForwardHash.fresh (replicate 64 0)) = Ok h ∧
       ForwardHash.size h = 64 ∧
       ForwardHash.push_back (ForwardHash.U8 64) h = AssertionFailed.
Proof.
  eexists. split; [vm_compute; reflexivity|]. split; vm_compute; reflexivity.
Qed.

Lemma hash2cpu_index_witness :
  forward_index (device_with 4 [1; 2]) (add_proxy_all [1; 2] qp_new) 35
    < N.of_nat (length (proxies (add_proxy_all [1; 2] (@qp_new unit unit)))) + 1 ∧
  (forward_index (device_with 4 [1; 2]) (add_proxy_all [1; 2] qp_new) 35 = 0 →
   hash2cpu (device_with 4 [1; 2]) 35 = Ok 0) ∧
  (1 <= forward_index (device_with 4 [1; 2]) (add_proxy_all [1; 2] qp_new) 35 →
   ∃ cpu,
     proxies (add_proxy_all [1; 2] (@qp_new unit unit))
       !! N.to_nat (forward_index (device_with 4 [1; 2])
                      (add_proxy_all [1; 2] qp_new) 35 - 1) = Some cpu ∧
     hash2cpu (device_with 4 [1; 2]) 35 = Ok cpu).
Proof.
  apply (hash2cpu_index (device_with 4 [1; 2]) 35 0
           (add_proxy_all [1; 2] qp_new)).
  - reflexivity.
  - reflexivity.
  - discriminate.
  - reflexivity.
Defined.

(** Proxies [[1; 2]] on core 0, no shift: the hashes 0, 1, 2, 3 go to the
    cores 0, 1, 2, 0. *)
Example hash2cpu_cycles :
  map (hash2cpu (device_with 0 [1; 2])) [0; 1; 2; 3; 4; 5] =
    [Ok 0; Ok 1; Ok 2; Ok 0; Ok 1; Ok 2].
Proof. vm_compute. reflexivity. Qed.

(** The shift drops the low bits first: 35 >> 4 = 2. *)
Example hash2cpu_shifts : hash2cpu (device_with 4 [1; 2]) 35 = Ok 2.
Proof. vm_compute. reflexivity. Qed.

Lemma hash2cpu_no_proxies_witness :
  hash2cpu (device_with 40 []) 35 = Ok 0.
Proof.
  apply (hash2cpu_no_proxies (device_with 40 []) 35 0 qp_new).
  - reflexivity.
  - reflexivity.
  - reflexivity.
Defined.

Lemma set_local_queue_once_witness :
  (∃ d', set_local_queue 1 qp_new (device_with 0 []) = Ok d' ∧
         queue_for_cpu d' 1 = Ok qp_new ∧
         length (_queues d') = length (_queues (device_with 0 [])) ∧
         ∀ cpu, cpu ≠ 1 →
                _queues d' !! N.to_nat cpu =
                _queues (device_with 0 []) !! N.to_nat cpu) ∧
  set_local_queue 0 qp_new (device_with 0 []) = AssertionFailed.
Proof.
  split.
  - apply (proj1 (set_local_queue_once 1 qp_new (device_with 0 []))).
    reflexivity.
  - apply (proj2 (set_local_queue_once 0 qp_new (device_with 0 []))
             (add_proxy_all [] qp_new)).
    reflexivity.
Defined.

(** The claim of C10 as it stands fails where a counter wraps: on a new
    queue pair, [update_rx_count(2^64 - 1)] and then [update_rx_count(1)]
    take the counter of received packets from [2^64 - 1] down to 0. *)
Lemma packets_rcv_wraps :
  _packets_rcv (update_rx_count 18446744073709551615 (@qp_new N world)) =
    18446744073709551615 ∧
  run_call send_all 0 (call_update_rx_count 1)
    (update_rx_count 18446744073709551615 qp_new) (mk_world [] [] []) =
    Some (update_rx_count 1 (update_rx_count 18446744073709551615 qp_new),
          mk_world [] [] []) ∧
  _packets_rcv
    (update_rx_count 1 (update_rx_count 18446744073709551615 (@qp_new N world)))
    = 0 ∧
  ¬ (_packets_rcv (update_rx_count 18446744073709551615 (@qp_new N world)) <=
     _packets_rcv
       (update_rx_count 1
          (update_rx_count 18446744073709551615 (@qp_new N world)))).
Proof.
  split; [reflexivity|]. split; [reflexivity|]. split; [reflexivity|].
  vm_compute. intros H. by apply H.
Qed.

Lemma counters_add_modulo_witness :
  ∃ q' w',
    run_call send_all 129 call_poll_tx qp_ab (mk_world [1; 3; 5] [2; 4] []) =
      Some (q', w') ∧
    _packets_rcv q' = _packets_rcv qp_ab ∧
    ∃ q1 w1,
      (if tx_size qp_ab <? 16
       then poll_tx_refill 129 qp_ab (mk_world [1; 3; 5] [2; 4] [])
       else Some (qp_ab, mk_world [1; 3; 5] [2; 4] [])) = Some (q1, w1) ∧
      match _tx_packetq q1 with
      | [] => _packets_snt q' = _packets_snt qp_ab
      | _ :: _ =>
          let n := uint32_t (send_all (_tx_packetq q1) w1).1.1 in
          _last_tx_bunch q' = n ∧
          _packets_snt q' = (_packets_snt qp_ab + n) mod 2 ^ 64 ∧
          (_packets_snt qp_ab + n < 2 ^ 64 →
           _packets_snt qp_ab <= _packets_snt q')
      end.
Proof.
  apply (counters_add_modulo send_all 129 call_poll_tx qp_ab
           (mk_world [1; 3; 5] [2; 4] [])).
  lia.
Defined.

(** The call above sends 5 packets and counts 5. *)
Example poll_tx_counts_five :
  ∃ q' w',
    run_call send_all 129 call_poll_tx qp_ab (mk_world [1; 3; 5] [2; 4] []) =
      Some (q', w') ∧
    _packets_snt q' = 5 ∧ _last_tx_bunch q' = 5.
Proof. eexists _, _. split; [vm_compute; reflexivity|]. by vm_compute. Qed.

End DemoFacts.

(** ** More on the hash accumulator *)

Module ForwardHashMore.
Import ForwardHash ForwardHashFacts.

Lemma push_back_u8_beyond b h h' :
  push_back_u8 b h = Ok h' →
  end_idx h' = end_idx h + 1 ∧
  drop (N.to_nat (end_idx h')) (data h') = drop (N.to_nat (end_idx h')) (data h).
Proof.
  unfold push_back_u8. destruct (end_idx h <? sizeof_data); [|done].
  simpl. intros [= <-]. simpl. split; [done|].
  apply drop_insert_lt. lia.
Qed.

Lemma drop_eq_mono {A} (l1 l2 : list A) (n m : nat) :
  drop n l1 = drop n l2 → (n ≤ m)%nat → drop m l1 = drop m l2.
Proof.
  intros E Hle. replace m with (n + (m - n))%nat by lia.
  by rewrite <-!drop_drop, E.
Qed.

Lemma push_back_u16_beyond b h h' :
  push_back_u16 b h = Ok h' →
  end_idx h' = end_idx h + 2 ∧
  drop (N.to_nat (end_idx h')) (data h') = drop (N.to_nat (end_idx h')) (data h).
Proof.
  unfold push_back_u16.
  destruct (push_back_u8 (uint8_t b) h) as [h1| |] eqn:E1; [|done|done].
  simpl. intros E2.
  apply push_back_u8_beyond in E1 as [He1 Hd1].
  apply push_back_u8_beyond in E2 as [He2 Hd2].
  split; [lia|]. rewrite Hd2. eapply drop_eq_mono; [done|lia].
Qed.

Lemma push_back_u32_beyond b h h' :
  push_back_u32 b h = Ok h' →
  end_idx h' = end_idx h + 4 ∧
  drop (N.to_nat (end_idx h')) (data h') = drop (N.to_nat (end_idx h')) (data h).
Proof.
  unfold push_back_u32.
  destruct (push_back_u16 (uint16_t b) h) as [h1| |] eqn:E1; [|done|done].
  simpl. intros E2.
  apply push_back_u16_beyond in E1 as [He1 Hd1].
  apply push_back_u16_beyond in E2 as [He2 Hd2].
  split; [lia|]. rewrite Hd2. eapply drop_eq_mono; [done|lia].
Qed.

Lemma push_back_beyond a h h' :
  push_back a h = Ok h' →
  end_idx h' = end_idx h + N.of_nat (width a) ∧
  drop (N.to_nat (end_idx h')) (data h') = drop (N.to_nat (end_idx h')) (data h).
Proof.
  destruct a as [b|b|b]; simpl; intros E.
  - by apply push_back_u8_beyond in E.
  - by apply push_back_u16_beyond in E.
  - by apply push_back_u32_beyond in E.
Qed.

Lemma push_all_beyond l h h' :
  push_all l h = Ok h' →
  end_idx h' = end_idx h + N.of_nat (total_bytes l) ∧
  drop (N.to_nat (end_idx h')) (data h') = drop (N.to_nat (end_idx h')) (data h).
Proof.
  revert h. induction l as [|a l IH]; intros h; simpl.
  - intros [= <-]. split; [lia|done].
  - destruct (push_back a h) as [h1| |] eqn:E1; [|done|done].
    simpl. intros E2. apply push_back_beyond in E1 as [He1 Hd1].
    apply IH in E2 as [He2 Hd2]. split; [lia|].
    rewrite Hd2. eapply drop_eq_mono; [done|lia].
Qed.

(** The whole array after a run of calls that fits. *)
Lemma push_all_data l h :
  wf h → end_idx h + N.of_nat (total_bytes l) <= 64 →
  ∃ h', push_all l h = Ok h' ∧
        end_idx h' = end_idx h + N.of_nat (total_bytes l) ∧
        data h' = written h ++ appended l ++
                  drop (N.to_nat (end_idx h) + total_bytes l) (data h).
Proof.
  intros Hwf Hroom.
  destruct (push_all_written l h) as (h' & E & Hwf' & He & Hw); [done|done|].
  exists h'. split; [done|]. split; [done|].
  destruct (push_all_beyond l h h' E) as [_ Hd].
  rewrite <-(take_drop (N.to_nat (end_idx h')) (data h')).
  fold (written h'). rewrite Hw, Hd, <-app_assoc. do 3 f_equal. lia.
Qed.

(** One call, whatever the state. *)
Lemma push_back_u8_outcome b h :
  (end_idx h < 64 →
   ∃ h', push_back_u8 b h = Ok h' ∧ end_idx h' = end_idx h + 1) ∧
  (64 <= end_idx h → push_back_u8 b h = AssertionFailed).
Proof.
  split; intros H.
  - eexists. split; [by apply push_back_u8_room|done].
  - by apply push_back_u8_full.
Qed.

Lemma push_back_u16_outcome b h :
  (end_idx h + 2 <= 64 →
   ∃ h', push_back_u16 b h = Ok h' ∧ end_idx h' = end_idx h + 2) ∧
  (64 < end_idx h + 2 → push_back_u16 b h = AssertionFailed).
Proof.
  unfold push_back_u16. split; intros H.
  - destruct (proj1 (push_back_u8_outcome (uint8_t b) h)) as (h1 & -> & E1); [lia|].
    simpl.
    destruct (proj1 (push_back_u8_outcome (uint8_t (N.shiftr b 8)) h1))
      as (h2 & -> & E2); [lia|].
    exists h2. split; [done|lia].
  - destruct (N.lt_ge_cases (end_idx h) 64) as [Hlt|Hge].
    + destruct (proj1 (push_back_u8_outcome (uint8_t b) h)) as (h1 & -> & E1);
        [done|].
      simpl. apply push_back_u8_outcome. lia.
    + by rewrite (proj2 (push_back_u8_outcome (uint8_t b) h)).
Qed.

Lemma push_back_u32_outcome b h :
  (end_idx h + 4 <= 64 →
   ∃ h', push_back_u32 b h = Ok h' ∧ end_idx h' = end_idx h + 4) ∧
  (64 < end_idx h + 4 → push_back_u32 b h = AssertionFailed).
Proof.
  unfold push_back_u32. split; intros H.
  - destruct (proj1 (push_back_u16_outcome (uint16_t b) h)) as (h1 & -> & E1);
      [lia|].
    simpl.
    destruct (proj1 (push_back_u16_outcome (uint16_t (N.shiftr b 16)) h1))
      as (h2 & -> & E2); [lia|].
    exists h2. split; [done|lia].
  - destruct (N.le_gt_cases (end_idx h + 2) 64) as [Hle|Hgt].
    + destruct (proj1 (push_back_u16_outcome (uint16_t b) h)) as (h1 & -> & E1);
        [done|].
      simpl. apply push_back_u16_outcome. lia.
    + by rewrite (proj2 (push_back_u16_outcome (uint16_t b) h)).
Qed.

Lemma push_back_outcome a h :
  (end_idx h + N.of_nat (width a) <= 64 →
   ∃ h', push_back a h = Ok h' ∧
         end_idx h' = end_idx h + N.of_nat (width a)) ∧
  (64 < end_idx h + N.of_nat (width a) → push_back a h = AssertionFailed).
Proof.
  destruct a as [b|b|b]; simpl.
  - split; intros H; apply push_back_u8_outcome; lia.
  - apply push_back_u16_outcome.
  - apply push_back_u32_outcome.
Qed.

(** X1: a run of [push_back] calls that fits into what is left of the 64
    cells rewrites only the cells from the old cursor up to the new one:
    the bytes written before stay, the bytes of the calls follow them, and
    every cell past the new cursor keeps what it held. *)
Theorem push_all_frame (l : list push_arg) (h : forward_hash) :
  wf h →
  end_idx h + N.of_nat (total_bytes l) <= 64 →
  ∃ h', push_all l h = Ok h' ∧
        size h' = size h + N.of_nat (total_bytes l) ∧
        (∀ i, i < size h → index h' i = index h i) ∧
        (∀ i, size h' <= i → index h' i = index h i) ∧
        data h' = written h ++ appended l ++
                  drop (N.to_nat (end_idx h) + total_bytes l) (data h).
Proof.
  intros Hwf Hroom.
  destruct (push_all_data l h) as (h' & E & He & Hd); [done|done|].
  exists h'. split; [done|]. unfold size. split; [done|].
  assert (Hlw : length (written h) = N.to_nat (end_idx h)).
  { unfold written. rewrite length_take. unfold wf in Hwf. lia. }
  split; [|split; [|done]].
  - intros i Hi. unfold index. rewrite Hd.
    rewrite lookup_app_l by lia.
    unfold written. apply lookup_take_lt. lia.
  - intros i Hi. unfold index. rewrite Hd, app_assoc.
    rewrite lookup_app_r by (rewrite length_app, length_appended; lia).
    rewrite length_app, length_appended, lookup_drop. f_equal. lia.
Qed.

Lemma push_all_frame_witness :
  ∃ h', push_all [U16 258; U8 3] (mk (replicate 64 9) 5) = Ok h' ∧
        size h' = size (mk (replicate 64 9) 5) +
                  N.of_nat (total_bytes [U16 258; U8 3]) ∧
        (∀ i, i < size (mk (replicate 64 9) 5) →
              index h' i = index (mk (replicate 64 9) 5) i) ∧
        (∀ i, size h' <= i → index h' i = index (mk (replicate 64 9) 5) i) ∧
        data h' = written (mk (replicate 64 9) 5) ++ appended [U16 258; U8 3] ++
                  drop (N.to_nat (end_idx (mk (replicate 64 9) 5)) +
                        total_bytes [U16 258; U8 3])
                       (data (mk (replicate 64 9) 5)).
Proof.
  apply (push_all_frame [U16 258; U8 3] (mk (replicate 64 9) 5)).
  - reflexivity.
  - vm_compute. discriminate.
Defined.

(** X2: two runs of [push_back] calls that append the same bytes, cut into
    calls of 1, 2 and 4 bytes in different ways, leave the same object
    when started on the same fresh one. *)
Theorem push_all_granularity (garbage : list N) (l1 l2 : list push_arg) :
  length garbage = 64%nat →
  appended l1 = appended l2 →
  (total_bytes l1 ≤ 64)%nat →
  ∃ h, push_all l1 (fresh garbage) = Ok h ∧
       push_all l2 (fresh garbage) = Ok h.
Proof.
  intros Hlen Happ Hfit.
  assert (Htot : total_bytes l2 = total_bytes l1).
  { by rewrite <-!length_appended, Happ. }
  destruct (push_all_data l1 (fresh garbage)) as (h1 & E1 & He1 & Hd1);
    [done|simpl; lia|].
  destruct (push_all_data l2 (fresh garbage)) as (h2 & E2 & He2 & Hd2);
    [done|simpl; lia|].
  exists h1. split; [done|]. rewrite E2. f_equal.
  destruct h1 as [d1 e1], h2 as [d2 e2]; simpl in *.
  f_equal; [|lia]. by rewrite Hd1, Hd2, Happ, Htot.
Qed.

Lemma push_all_granularity_witness :
  ∃ h, push_all [U32 67305985; U16 1541] (fresh (replicate 64 0)) = Ok h ∧
       push_all [U8 1; U16 770; U8 4; U8 5; U8 6] (fresh (replicate 64 0)) = Ok h.
Proof.
  apply (push_all_granularity (replicate 64 0) [U32 67305985; U16 1541]
           [U8 1; U16 770; U8 4; U8 5; U8 6]).
  - reflexivity.
  - reflexivity.
  - vm_compute. lia.
Defined.

(** X3: from any state the object can be in (at most 64 bytes written), a
    run of [push_back] calls goes through exactly when the bytes of all its
    calls fit into what is left of the 64; when they do not, it ends on the
    assertion, and never in any other way. *)
Theorem push_all_capacity (l : list push_arg) (h : forward_hash) :
  end_idx h <= 64 →
  (end_idx h + N.of_nat (total_bytes l) <= 64 →
   ∃ h', push_all l h = Ok h' ∧
         size h' = size h + N.of_nat (total_bytes l)) ∧
  (64 < end_idx h + N.of_nat (total_bytes l) →
   push_all l h = AssertionFailed).
Proof.
  unfold size. revert h. induction l as [|a l IH]; intros h Hinv; simpl.
  - split; intros H; [|lia]. exists h. split; [done|lia].
  - split; intros H.
    + destruct (proj1 (push_back_outcome a h)) as (h1 & -> & E1); [lia|].
      simpl. destruct (proj1 (IH h1 ltac:(lia))) as (h2 & E2 & He2); [lia|].
      exists h2. split; [done|lia].
    + destruct (N.le_gt_cases (end_idx h + N.of_nat (width a)) 64) as [Hle|Hgt].
      * destruct (proj1 (push_back_outcome a h)) as (h1 & -> & E1); [done|].
        simpl. apply IH; lia.
      * by rewrite (proj2 (push_back_outcome a h)).
Qed.

Lemma push_all_capacity_witness :
  (∃ h', push_all [U32 1; U32 2] (mk (replicate 64 0) 56) = Ok h' ∧
         size h' = size (mk (replicate 64 0) 56) +
                   N.of_nat (total_bytes [U32 1; U32 2])) ∧
  push_all [U32 1; U32 2; U8 3] (mk (replicate 64 0) 56) = AssertionFailed.
Proof.
  split.
  - apply (proj1 (push_all_capacity [U32 1; U32 2] (mk (replicate 64 0) 56)
                    ltac:(vm_compute; discriminate))).
    vm_compute. discriminate.
  - apply (proj2 (push_all_capacity [U32 1; U32 2; U8 3]
                    (mk (replicate 64 0) 56) ltac:(vm_compute; discriminate))).
    reflexivity.
Defined.

End ForwardHashMore.

(** ** More on the queue pair *)

Section queue_pair_more.

Context {packet W : Type}.
Implicit Types (q : qp packet W) (w : W) (pr : packet_provider packet W).
Implicit Types (prs : list (packet_provider packet W)).

(** *** The default batch [send] *)

Lemma send_loop_spec (send1 : packet → W → W) (p : list packet) (sent : N) w :
  sent < 2 ^ 32 →
  send_loop send1 p sent w =
    (uint32_t (sent + N.of_nat (length p)), [],
     fold_left (λ w' x, send1 x w') p w).
Proof.
  revert sent w. induction p as [|x p IH]; intros sent w Hsent; simpl.
  - unfold uint32_t. rewrite N.add_0_r, N.mod_small; done.
  - rewrite IH by (unfold uint32_t; by apply N.mod_lt).
    do 2 f_equal. unfold uint32_t. change (2 ^ 32) with 4294967296.
    div_mod_lia.
Qed.

Lemma send_batch_spec_aux (send1 : packet → W → W) (p : list packet) w :
  send_batch send1 p w =
    (N.of_nat (length p) mod 2 ^ 32, [], fold_left (λ w' x, send1 x w') p w).
Proof. unfold send_batch. by rewrite send_loop_spec. Qed.

(** X4: the default [send(circular_buffer<packet>&)] hands every packet of
    the batch to [send(packet)], front first, leaves the batch empty and
    returns the number of packets modulo [2^32]. *)
Theorem send_batch_drains (send1 : packet → W → W) (p : list packet) w :
  send_batch send1 p w =
    (N.of_nat (length p) mod 2 ^ 32, [], fold_left (λ w' x, send1 x w') p w).
Proof.
  unfold send_batch. rewrite send_loop_spec by done.
  by rewrite N.add_0_l.
Qed.

(** *** What [poll_tx] leaves alone *)

Lemma only_moves_packets_refl q : only_moves_packets q q.
Proof.
  repeat split. exists [], []. rewrite app_nil_r. by repeat split.
Qed.

Lemma only_moves_packets_trans q1 q2 q3 :
  only_moves_packets q1 q2 → only_moves_packets q2 q3 →
  only_moves_packets q1 q3.
Proof.
  intros (A1 & A2 & A3 & A4 & A5 & A6 & new1 & taken1 & At & Ap & As)
         (B1 & B2 & B3 & B4 & B5 & B6 & new2 & taken2 & Bt & Bp & Bs).
  unfold only_moves_packets.
  rewrite B1, B2, B3, B4, B5, B6. repeat (split; [done|]).
  exists (new1 ++ new2), (taken1 ++ taken2).
  rewrite Bt, At, Ap, Bp, <-!app_assoc. repeat split; try done.
  by apply sublist_app.
Qed.

Lemma call_provider_moves pr q w :
  match (call_provider pr q w).1.1 with
  | Some pk =>
      only_moves_packets q
        (set_tx_packetq (_tx_packetq (call_provider pr q w).1.2 ++ [pk])
           (call_provider pr q w).1.2)
  | None => (call_provider pr q w).1.2 = q
  end.
Proof.
  destruct pr as [|f]; simpl.
  - unfold proxy_drain. destruct (_proxy_packetq q) as [|p rest] eqn:E; simpl.
    + done.
    + unfold only_moves_packets; simpl. repeat (split; [done|]).
      exists [p], [p]. by rewrite E.
  - destruct (f w) as [[pk|] w1]; simpl; [|done].
    unfold only_moves_packets; simpl. repeat (split; [done|]).
    exists [pk], []. repeat split; try done. apply sublist_nil_l.
Qed.

Lemma poll_tx_for_moves prs work q w :
  only_moves_packets q (poll_tx_for prs work q w).1.2.
Proof.
  revert work q w. induction prs as [|pr prs IH]; intros work q w; simpl.
  - apply only_moves_packets_refl.
  - pose proof (call_provider_moves pr q w) as Hcall.
    destruct (call_provider pr q w) as [[[pk|] q1] w1]; simpl in *.
    + destruct (tx_size _ =? 128); [done|].
      eapply only_moves_packets_trans; [exact Hcall|apply IH].
    + subst q1. apply IH.
Qed.

Lemma poll_tx_refill_moves fuel q w s' :
  poll_tx_refill fuel q w = Some s' → only_moves_packets q s'.1.
Proof.
  revert q w. induction fuel as [|fuel IH]; intros q w E; [done|].
  simpl in E. pose proof (poll_tx_for_moves (_pkt_providers q) 0 q w) as Hfor.
  destruct (poll_tx_for (_pkt_providers q) 0 q w) as [[work q1] w1]; simpl in *.
  destruct (negb (work =? 0) && (tx_size q1 <? 128)).
  - eapply only_moves_packets_trans; [exact Hfor|by eapply IH].
  - by inversion E; subst.
Qed.

Variable send : list packet → W → N * list packet * W.

(** [poll_tx] as its two halves. *)
Lemma poll_tx_halves fuel q w r :
  poll_tx send fuel q w = Some r →
  ∃ q1 w1, only_moves_packets q q1 ∧
           (16 <= tx_size q → q1 = q ∧ w1 = w) ∧
           (tx_size q < 128 → tx_size q1 <= 128) ∧
           r = poll_tx_send send q1 w1.
Proof.
  unfold poll_tx. destruct (N.ltb_spec (tx_size q) 16) as [Hlow|Hhigh].
  - destruct (poll_tx_refill fuel q w) as [[q1 w1]|] eqn:Er; [|done].
    simpl. intros [= <-]. exists q1, w1.
    split; [by apply (poll_tx_refill_moves _ _ _ _ Er)|].
    split; [lia|]. split; [|done]. intros _.
    destruct fuel as [|fuel']; [done|].
    destruct (N.ltb_spec (tx_size q1) 128); [lia|].
    (* the loop only ends at or above 128 on the pass that reaches 128 *)
    assert (Hfuel : ∀ n q0 w0, tx_size q0 < 128 →
              poll_tx_refill n q0 w0 = Some (q1, w1) → tx_size q1 <= 128).
    { clear. induction n as [|n IHn]; intros q0 w0 Hq0 E; [done|].
      simpl in E.
      destruct (poll_tx_for_spec (_pkt_providers q0) 0 q0 w0)
        as (asked & rest & d & _ & Efor & _ & Hend); [done|done|].
      rewrite Efor in E.
      destruct (negb (uint32_t (0 + d) =? 0) &&
                (tx_size (ask_all asked (q0, w0)).1 <? 128)) eqn:Ec.
      - apply andb_true_iff in Ec as [_ Hlt%N.ltb_lt]. by eapply IHn.
      - inversion E; subst. destruct Hend as [[_ ?]|[? _]]; simpl in *; lia. }
    by eapply (Hfuel (S fuel') q w); [lia|].
  - simpl. intros [= <-]. exists q, w.
    split; [apply only_moves_packets_refl|]. split; [done|]. split; [lia|done].
Qed.

(** X5: a call of [poll_tx], with any providers registered and any batch
    [send], does not write the list of providers, the proxies or the
    receive counters, and the proxy queue only loses packets at its front.
    (Providers of upper layers are closures over the state outside the
    queue pair, and the backend is handed the batch only.) *)
Theorem poll_tx_frame (fuel : nat) q w (b : bool) q' w' :
  poll_tx send fuel q w = Some (b, q', w') →
  _pkt_providers q' = _pkt_providers q ∧
  proxies q' = proxies q ∧
  _packets_rcv q' = _packets_rcv q ∧
  _last_rx_bunch q' = _last_rx_bunch q ∧
  ∃ taken, _proxy_packetq q = taken ++ _proxy_packetq q'.
Proof.
  intros E. destruct (poll_tx_halves _ _ _ _ E)
    as (q1 & w1 & (A1 & A2 & _ & A4 & _ & A6 & new & taken & _ & Ap & _)
        & _ & _ & Er).
  unfold poll_tx_send in Er. destruct (_tx_packetq q1).
  - inversion Er; subst. repeat (split; [done|]). by exists taken.
  - destruct (send _ w1) as [[n remaining] w2]. inversion Er; subst; simpl.
    repeat (split; [done|]). by exists taken.
Qed.


(** *** The bound on the batch *)

Lemma poll_tx_total fuel q w :
  (129 ≤ fuel)%nat → ∃ r, poll_tx send fuel q w = Some r.
Proof.
  intros Hfuel. unfold poll_tx. destruct (N.ltb_spec (tx_size q) 16).
  - destruct (poll_tx_refill_spec fuel q w) as ([q1 w1] & -> & _); [lia|lia|].
    by eexists.
  - by eexists.
Qed.

Lemma run_call_tx_bound fuel (c : qp_call packet W) q w :
  (∀ l w0, (length (send l w0).1.2 ≤ length l)%nat) →
  (129 ≤ fuel)%nat →
  tx_size q <= 128 →
  ∃ q' w', run_call send fuel c q w = Some (q', w') ∧ tx_size q' <= 128.
Proof.
  intros Hsend Hfuel Hq. destruct c as [count|cpu|p|func|]; simpl.
  - by eexists _, _.
  - eexists _, _. split; [done|]. unfold add_proxy, tx_size in *.
    by destruct (may_forward q).
  - by eexists _, _.
  - by eexists _, _.
  - destruct (poll_tx_total fuel q w Hfuel) as [r Er]. rewrite Er.
    destruct (poll_tx_halves _ _ _ _ Er) as (q1 & w1 & _ & Hhigh & Hlow & ->).
    assert (Hq1 : tx_size q1 <= 128).
    { destruct (N.lt_ge_cases (tx_size q) 16) as [?|H16]; [apply Hlow; lia|].
      by destruct (Hhigh H16) as [-> _]. }
    unfold poll_tx_send. destruct (_tx_packetq q1) as [|p l] eqn:Et.
    + simpl. eexists _, _. split; [done|]. unfold tx_size. rewrite Et. simpl. lia.
    + specialize (Hsend (p :: l) w1).
      destruct (send (p :: l) w1) as [[n remaining] w2]. simpl in *.
      eexists _, _. split; [done|]. unfold tx_size in *; simpl.
      rewrite Et in Hq1. simpl in Hq1. lia.
Qed.

(** X7: with a backend whose batch [send] only takes packets out of the
    batch, any sequence of calls on a queue pair whose batch holds at most
    128 packets runs to its end and leaves at most 128 packets in the
    batch. *)
Theorem batch_never_above_128 (fuel : nat) (cs : list (qp_call packet W)) q w :
  (∀ l w0, (length (send l w0).1.2 ≤ length l)%nat) →
  (129 ≤ fuel)%nat →
  tx_size q <= 128 →
  ∃ q' w', run_calls send fuel cs q w = Some (q', w') ∧ tx_size q' <= 128.
Proof.
  intros Hsend Hfuel. revert q w.
  induction cs as [|c cs IH]; intros q w Hq; simpl.
  - by exists q, w.
  - destruct (run_call_tx_bound fuel c q w) as (q1 & w1 & -> & Hq1);
      [done|done|done|].
    simpl. by apply IH.
Qed.

(** *** A queue pair that only forwards *)




(** *** The default backend *)

(** X9: with the default batch [send] and at most 128 packets in the
    batch, [poll_tx] hands every packet of the batch it has after the
    refill to [send(packet)], front first, and leaves the batch empty.
    When that batch is not empty it returns true, [_last_tx_bunch] is the
    number of packets of the batch, which is between 1 and 128 and so not
    truncated, and [_packets_snt] has grown by that number modulo [2^64];
    when it is empty it returns false and changes nothing more. *)
Theorem poll_tx_default_send (send1 : packet → W → W) (fuel : nat) q w :
  (129 ≤ fuel)%nat →
  tx_size q <= 128 →
  ∃ q1 w1,
    (if tx_size q <? 16 then poll_tx_refill fuel q w else Some (q, w))
      = Some (q1, w1) ∧
    tx_size q1 <= 128 ∧
    _packets_snt q1 = _packets_snt q ∧
    poll_tx (send_batch send1) fuel q w =
      Some (match _tx_packetq q1 with
            | [] => (false, q1, w1)
            | _ :: _ =>
                (true,
                 mk_qp (_pkt_providers q1) (proxies q1) (_proxy_packetq q1) []
                       ((_packets_snt q1 + tx_size q1) mod 2 ^ 64)
                       (_packets_rcv q1) (tx_size q1) (_last_rx_bunch q1),
                 fold_left (λ w' x, send1 x w') (_tx_packetq q1) w1)
            end).
Proof.
  clear send. intros Hfuel Hq. unfold poll_tx.
  assert (∃ q1 w1,
    (if tx_size q <? 16 then poll_tx_refill fuel q w else Some (q, w))
      = Some (q1, w1) ∧
    tx_size q1 <= 128 ∧ _packets_snt q1 = _packets_snt q)
    as (q1 & w1 & Er & Hq1 & Hs).
  { destruct (N.ltb_spec (tx_size q) 16).
    - destruct (poll_tx_refill_spec fuel q w) as ([q1 w1] & E & _ & Hcap);
        [lia|lia|].
      destruct (poll_tx_refill_moves _ _ _ _ E) as (_ & _ & ? & _).
      by exists q1, w1.
    - by exists q, w. }
  exists q1, w1. rewrite Er. simpl. repeat (split; [done|]).
  f_equal. unfold poll_tx_send, tx_size in *.
  destruct (_tx_packetq q1) as [|p l] eqn:Et; [done|].
  rewrite send_batch_spec_aux.
  assert (Hn : uint32_t (N.of_nat (length (p :: l)) mod 2 ^ 32)
               = N.of_nat (length (p :: l))).
  { unfold uint32_t. rewrite N.Div0.mod_mod.
    apply N.mod_small. change (2 ^ 32) with 4294967296. lia. }
  cbv zeta. rewrite Hn. done.
Qed.

End queue_pair_more.

(** ** Sequences of calls on a queue pair *)

Section queue_pair_calls.

Context {packet W : Type}.
Variable send : list packet → W → N * list packet * W.
Implicit Types (q : qp packet W) (w : W) (c : qp_call packet W).
Implicit Types (cs : list (qp_call packet W)).

Lemma last_cons_default (l : list N) (a d d' : N) :
  List.last (a :: l) d = List.last (a :: l) d'.
Proof.
  revert a. induction l as [|b l IH]; intros a; [done|].
  change (List.last (b :: l) d = List.last (b :: l) d'). apply IH.
Qed.

Lemma update_rx_count_all_cons count counts q :
  update_rx_count_all (count :: counts) q =
  update_rx_count_all counts (update_rx_count count q).
Proof. done. Qed.

(** X10: after [update_rx_count] was called with each count of a list,
    the counter of received packets has grown by the sum of the counts
    modulo [2^64] and [_last_rx_bunch] holds the last count; with no call
    both are as before. *)
Theorem update_rx_count_all_sum (counts : list N) q :
  _packets_rcv q < 2 ^ 64 →
  _packets_rcv (update_rx_count_all counts q) =
    (_packets_rcv q + foldr N.add 0 counts) mod 2 ^ 64 ∧
  _last_rx_bunch (update_rx_count_all counts q) =
    List.last counts (_last_rx_bunch q).
Proof.
  revert q. induction counts as [|count counts IH]; intros q Hq.
  - simpl. rewrite N.add_0_r, N.mod_small; done.
  - rewrite update_rx_count_all_cons.
    destruct (IH (update_rx_count count q)) as [IHr IHl].
    { simpl. unfold uint64_t. by apply N.mod_lt. }
    rewrite IHr, IHl. split.
    + simpl. unfold uint64_t. rewrite N.Div0.add_mod_idemp_l. f_equal. lia.
    + destruct counts as [|n counts]; [done|]. simpl. apply last_cons_default.
Qed.

Lemma run_call_keeps_registered c q w q' w' (fuel : nat) :
  run_call send fuel c q w = Some (q', w') →
  _pkt_providers q' =
    _pkt_providers q ++
    match c with
    | call_add_proxy _ => if may_forward q then [] else [proxy_provider]
    | call_register_packet_provider func => [func]
    | _ => []
    end ∧
  proxies q' = proxies q ++ added_proxies [c].
Proof.
  intros E. destruct c as [count|cpu|p|func|]; simpl in E.
  - inversion E; subst; simpl. by rewrite !app_nil_r.
  - inversion E; subst; simpl. unfold add_proxy.
    destruct (may_forward q); simpl; by rewrite ?app_nil_r.
  - inversion E; subst; simpl. by rewrite !app_nil_r.
  - inversion E; subst; simpl. by rewrite !app_nil_r.
  - destruct (poll_tx send fuel q w) as [[[b q1] w1]|] eqn:Ep; [|done].
    simpl in E. inversion E; subst.
    destruct (poll_tx_halves send _ _ _ _ Ep)
      as (q1 & w1 & (A1 & A2 & _) & _ & _ & Er).
    simpl. rewrite !app_nil_r. unfold poll_tx_send in Er.
    destruct (_tx_packetq q1).
    + by inversion Er; subst.
    + destruct (send _ w1) as [[n remaining] w2]. by inversion Er; subst.
Qed.

Lemma run_calls_total (fuel : nat) cs q w :
  (129 ≤ fuel)%nat → ∃ q' w', run_calls send fuel cs q w = Some (q', w').
Proof.
  intros Hfuel. revert q w. induction cs as [|c cs IH]; intros q w; simpl.
  - by eexists _, _.
  - assert (∃ q1 w1, run_call send fuel c q w = Some (q1, w1))
      as (q1 & w1 & ->).
    { destruct c; simpl; try by eexists _, _.
      destruct (poll_tx_total send fuel q w Hfuel) as [[[b q1] w1] ->].
      by eexists _, _. }
    simpl. apply IH.
Qed.

(** X11: start from a new queue pair and let calls of any kind follow one
    another, those of [register_packet_provider] bringing closures of
    upper layers.  Then [proxies] lists the cores of the [add_proxy] calls
    in their order, and the provider that drains the proxy queue is in the
    list of providers once if there was such a call and not at all if
    there was none. *)
Theorem proxy_provider_registered_once (fuel : nat) cs w :
  (129 ≤ fuel)%nat →
  forallb from_outside cs = true →
  ∃ q' w',
    run_calls send fuel cs qp_new w = Some (q', w') ∧
    proxies q' = added_proxies cs ∧
    length (List.filter is_proxy_provider (_pkt_providers q')) =
      (if may_forward q' then 1 else 0)%nat.
Proof.
  intros Hfuel Hout.
  destruct (run_calls_total fuel cs qp_new w Hfuel) as (q' & w' & E).
  exists q', w'. split; [done|].
  assert (Hgen : ∀ cs q w q' w',
    forallb from_outside cs = true →
    run_calls send fuel cs q w = Some (q', w') →
    length (List.filter is_proxy_provider (_pkt_providers q)) =
      (if may_forward q then 1 else 0)%nat →
    proxies q' = proxies q ++ added_proxies cs ∧
    length (List.filter is_proxy_provider (_pkt_providers q')) =
      (if may_forward q' then 1 else 0)%nat).
  { clear. induction cs as [|c cs IH]; intros q w q' w' Hout E Hinv; simpl in *.
    - inversion E; subst. by rewrite app_nil_r.
    - apply andb_true_iff in Hout as [Hc Hcs].
      destruct (run_call send fuel c q w) as [[q1 w1]|] eqn:Ec; [|done].
      simpl in E.
      destruct (run_call_keeps_registered _ _ _ _ _ _ Ec) as [Hp Hx].
      destruct (IH q1 w1 q' w' Hcs E) as [IHx IHp].
      + rewrite Hp, List.filter_app, length_app, Hinv.
        unfold may_forward. rewrite Hx.
        destruct c as [count|cpu|p|func|]; simpl in *;
          rewrite ?app_nil_r; try (destruct (proxies q); simpl; lia).
        destruct func; [done|]. simpl. destruct (proxies q); simpl; lia.
      + split; [|done]. rewrite IHx, Hx, <-app_assoc. f_equal.
        unfold added_proxies. simpl. by rewrite app_nil_r. }
  by apply (Hgen cs qp_new w q' w').
Qed.

(** X12: no call takes a provider or a proxy away or moves one: along any
    sequence of calls the providers and the proxies at the start are the
    front part of those at the end, and once [may_forward] is true it
    stays true. *)
Theorem registrations_only_grow (fuel : nat) cs q w q' w' :
  run_calls send fuel cs q w = Some (q', w') →
  _pkt_providers q `prefix_of` _pkt_providers q' ∧
  proxies q `prefix_of` proxies q' ∧
  (may_forward q = true → may_forward q' = true).
Proof.
  revert q w. induction cs as [|c cs IH]; intros q w E; simpl in E.
  - by inversion E; subst.
  - destruct (run_call send fuel c q w) as [[q1 w1]|] eqn:Ec; [|done].
    simpl in E. destruct (run_call_keeps_registered _ _ _ _ _ _ Ec) as [Hp Hx].
    destruct (IH q1 w1 E) as (IHp & IHx & IHm).
    split; [|split].
    + etrans; [|exact IHp]. rewrite Hp. by apply prefix_app_r.
    + etrans; [|exact IHx]. rewrite Hx. by apply prefix_app_r.
    + intros Hm. apply IHm. unfold may_forward in *. rewrite Hx.
      by destruct (proxies q).
Qed.

End queue_pair_calls.

(** ** More on the device *)

Section device_more.

Context {packet W : Type}.
Implicit Types (q : qp packet W) (d : device packet W).

Lemma forward_dst_cases d src hashfn :
  match queue_for_cpu d src with
  | Ok q =>
      match proxies q with
      | [] => forward_dst d src hashfn = Ok src
      | _ :: _ =>
          if 32 <=? _rss_table_bits d
          then forward_dst d src hashfn = Undefined
          else forward_dst d src hashfn = Ok src ∨
               ∃ cpu, cpu ∈ proxies q ∧ forward_dst d src hashfn = Ok cpu
      end
  | _ => forward_dst d src hashfn = Undefined
  end.
Proof.
  unfold forward_dst, queue_for_cpu.
  destruct (_queues d !! N.to_nat src) as [[q|]|]; simpl; [|done|done].
  unfold may_forward. destruct (proxies q) as [|c l] eqn:Ep; [done|].
  simpl negb. cbv iota. rewrite <-Ep.
  destruct (32 <=? _rss_table_bits d); [done|].
  set (idx := N.shiftr (hashfn tt) (_rss_table_bits d)
              mod (N.of_nat (length (proxies q)) + 1)).
  assert (Hidx : idx < N.of_nat (length (proxies q)) + 1).
  { apply N.mod_lt. lia. }
  destruct (N.eqb_spec idx 0); [by left|]. right.
  destruct (lookup_lt_is_Some_2 (proxies q) (N.to_nat (idx - 1))) as [cpu Hcpu];
    [lia|].
  exists cpu. rewrite Hcpu. split; [|done].
  apply list_elem_of_lookup. by exists (N.to_nat (idx - 1)).
Qed.

(** X13: when [hash2cpu] returns a core, it is the one [hash2qid] picked,
    which is below [hw_queues_count()] and has a queue pair, or one of the
    proxies of that queue pair; no other core is ever the target. *)
Theorem hash2cpu_target d (hash cpu : N) :
  hash2cpu d hash = Ok cpu →
  ∃ src q,
    hash2qid d hash = Ok src ∧
    src < hw_queues_count d ∧
    queue_for_cpu d src = Ok q ∧
    (cpu = src ∨ cpu ∈ proxies q).
Proof.
  unfold hash2cpu, hash2qid.
  destruct (N.eqb_spec (hw_queues_count d) 0) as [|Hhw]; [done|]. simpl.
  set (src := hash mod hw_queues_count d). intros E.
  pose proof (forward_dst_cases d src (λ _, hash)) as Hc.
  destruct (queue_for_cpu d src) as [q| |] eqn:Eq; [|congruence|congruence].
  exists src, q. split; [done|]. split; [by apply N.mod_lt|]. split; [done|].
  destruct (proxies q) as [|c l] eqn:Ep.
  - left. congruence.
  - destruct (32 <=? _rss_table_bits d); [congruence|].
    destruct Hc as [Hc|(cpu' & Hin & Hc)]; [left; congruence|].
    right. assert (cpu = cpu') as -> by congruence. done.
Qed.

(** X14: [hash2cpu] never fails on an assertion, and it is undefined in
    three cases only: [hw_queues_count()] is 0, the core that [hash2qid]
    picked has no queue pair, or that queue pair has proxies and
    [_rss_table_bits] is 32 or more.  The index into [proxies] is always
    in range. *)
Theorem hash2cpu_defined d (hash : N) :
  hash2cpu d hash ≠ AssertionFailed ∧
  (hash2cpu d hash = Undefined ↔
   hw_queues_count d = 0 ∨
   queue_for_cpu d (hash mod hw_queues_count d) = Undefined ∨
   ∃ q, queue_for_cpu d (hash mod hw_queues_count d) = Ok q ∧
        proxies q ≠ [] ∧ 32 <= _rss_table_bits d).
Proof.
  unfold hash2cpu, hash2qid.
  destruct (N.eqb_spec (hw_queues_count d) 0) as [Hhw|Hhw]; simpl.
  { split; [done|]. split; [by left|done]. }
  set (src := hash mod hw_queues_count d).
  pose proof (forward_dst_cases d src (λ _, hash)) as Hc.
  assert (Hq : queue_for_cpu d src ≠ AssertionFailed).
  { unfold queue_for_cpu. by destruct (_queues d !! N.to_nat src) as [[?|]|]. }
  destruct (queue_for_cpu d src) as [q| |] eqn:Eq; [|done|].
  - destruct (proxies q) as [|c l] eqn:Ep.
    + rewrite Hc. split; [done|]. split; [done|].
      intros [?|[?|(q0 & [= <-] & Hne & _)]]; [done|done|]. by rewrite Ep in Hne.
    + destruct (N.leb_spec 32 (_rss_table_bits d)) as [Hbits|Hbits].
      * rewrite Hc. split; [done|]. split; [|done]. intros _. right; right.
        exists q. rewrite Ep. by repeat split.
      * assert (∃ r, forward_dst d src (λ _, hash) = Ok r) as [r ->].
        { destruct Hc as [->|(cpu & _ & ->)]; by eexists. }
        split; [done|]. split; [done|].
        intros [?|[?|(q0 & _ & _ & ?)]]; [done|done|lia].
  - rewrite Hc. split; [done|]. split; [|done]. intros _. right. by left.
Qed.

(** X15: with one hardware queue, a queue pair on core 0 and a shift below
    32, a proxy [proxies[k]] for which [(k + 1) << _rss_table_bits] is
    below [2^32] is the target of that 32-bit hash. *)
Theorem hash2cpu_reaches_proxy d q (k : nat) (cpu : N) :
  hw_queues_count d = 1 →
  queue_for_cpu d 0 = Ok q →
  _rss_table_bits d < 32 →
  proxies q !! k = Some cpu →
  (N.of_nat k + 1) * 2 ^ _rss_table_bits d < 2 ^ 32 →
  N.shiftl (N.of_nat k + 1) (_rss_table_bits d) < 2 ^ 32 ∧
  hash2cpu d (N.shiftl (N.of_nat k + 1) (_rss_table_bits d)) = Ok cpu.
Proof.
  intros Hhw Hq Hbits Hk H32. split; [by rewrite N.shiftl_mul_pow2|].
  unfold hash2cpu, hash2qid. rewrite Hhw. simpl.
  rewrite N.mod_1_r.
  rewrite (forward_dst_forward d 0 _ q); [|done| |done].
  2:{ intros Hnil. by rewrite Hnil in Hk. }
  simpl. rewrite N.shiftr_shiftl_l by lia. rewrite N.sub_diag, N.shiftl_0_r.
  apply lookup_lt_Some in Hk as Hlen.
  rewrite N.mod_small by lia.
  destruct (N.eqb_spec (N.of_nat k + 1) 0); [lia|].
  replace (N.to_nat (N.of_nat k + 1 - 1)) with k by lia. by rewrite Hk.
Qed.

Lemma set_local_queues_slots (ins : list (N * qp packet W)) d :
  NoDup ins.*1 →
  (∀ cpu, cpu ∈ ins.*1 → _queues d !! N.to_nat cpu = Some None) →
  ∃ d', set_local_queues ins d = Ok d' ∧
        length (_queues d') = length (_queues d) ∧
        (∀ cpu dev, (cpu, dev) ∈ ins →
                    _queues d' !! N.to_nat cpu = Some (Some dev)) ∧
        (∀ cpu, cpu ∉ ins.*1 →
                _queues d' !! N.to_nat cpu = _queues d !! N.to_nat cpu).
Proof.
  revert d. induction ins as [|[c dev] ins IH]; intros d Hnd Hfree; simpl in *.
  - exists d. split; [done|]. split; [done|]. split; [|done].
    intros cpu dev' Hin. by apply elem_of_nil in Hin.
  - pose proof (NoDup_cons_1_1 _ _ Hnd) as Hc. apply NoDup_cons_1_2 in Hnd.
    unfold set_local_queue. rewrite (Hfree c) by left. simpl.
    set (d1 := mk_device (<[N.to_nat c:=Some dev]> (_queues d))
                 (_rss_table_bits d) (hw_queues_count d)).
    assert (Hin_range : (N.to_nat c < length (_queues d))%nat).
    { eapply lookup_lt_Some. apply Hfree. left. }
    destruct (IH d1 Hnd) as (d' & E & Hlen & Hset & Hother).
    { intros cpu Hcpu. simpl. rewrite list_lookup_insert_ne.
      - apply Hfree. by right.
      - intros Heq. apply N2Nat.inj in Heq. by subst. }
    exists d'. split; [done|]. split.
    { rewrite Hlen. simpl. by rewrite length_insert. }
    split.
    + intros cpu dev' Hin. apply elem_of_cons in Hin as [[= -> ->]|Hin].
      * rewrite Hother by done. simpl. by apply list_lookup_insert_eq.
      * by apply Hset.
    + intros cpu Hcpu. apply not_elem_of_cons in Hcpu as [Hne Hcpu].
      rewrite Hother by done. simpl. apply list_lookup_insert_ne.
      intros Heq. apply N2Nat.inj in Heq. by subst.
Qed.

(** X16: on a device just constructed for [smp_count] cores,
    [set_local_queue] called once on each of any distinct cores below
    [smp_count], in any order, succeeds every time; afterwards
    [queue_for_cpu] gives each of these cores the queue pair installed on
    it, and is undefined on every other core. *)
Theorem set_local_queues_fresh (smp_count : nat) (hw_queues : N)
    (ins : list (N * qp packet W)) :
  NoDup ins.*1 →
  (∀ cpu, cpu ∈ ins.*1 → (N.to_nat cpu < smp_count)%nat) →
  ∃ d', set_local_queues ins (device_new smp_count hw_queues) = Ok d' ∧
        (∀ cpu dev, (cpu, dev) ∈ ins → queue_for_cpu d' cpu = Ok dev) ∧
        (∀ cpu, cpu ∉ ins.*1 → queue_for_cpu d' cpu = Undefined).
Proof.
  intros Hnd Hrange.
  destruct (set_local_queues_slots ins (device_new smp_count hw_queues))
    as (d' & E & _ & Hset & Hother); [done| |].
  { intros cpu Hcpu. simpl. apply lookup_replicate_2. by apply Hrange. }
  exists d'. split; [done|]. unfold queue_for_cpu. split.
  - intros cpu dev Hin. by rewrite (Hset cpu dev Hin).
  - intros cpu Hcpu. rewrite (Hother cpu Hcpu). simpl.
    destruct (replicate smp_count None !! N.to_nat cpu) as [slot|] eqn:Es;
      [|done].
    apply lookup_replicate in Es as [-> _]. done.
Qed.

End device_more.

(** ** The logger *)

Module LogFacts.
Import Log.



End LogFacts.

(** ** The further properties at work *)

Module MoreDemo.
Import Demo.

(** The default batch [send] on the wire of the small world. *)
Example send_all_wire :
  send_all [4; 5; 6] (mk_world [] [] [1]) = (3, [], mk_world [] [] [1; 4; 5; 6]).
Proof. vm_compute. reflexivity. Qed.

Lemma poll_tx_frame_witness :
  _pkt_providers qp_busy_polled = _pkt_providers qp_busy ∧
  proxies qp_busy_polled = proxies qp_busy ∧
  _packets_rcv qp_busy_polled = _packets_rcv qp_busy ∧
  _last_rx_bunch qp_busy_polled = _last_rx_bunch qp_busy ∧
  ∃ taken, _proxy_packetq qp_busy = taken ++ _proxy_packetq qp_busy_polled.
Proof.
  apply (poll_tx_frame send_all 129 qp_busy (mk_world [1] [] []) true
           qp_busy_polled (mk_world [] [] (1 :: count_from 0 127))).
  vm_compute. reflexivity.
Defined.

(** In that call [provider_a] gave its packet, 127 packets left the proxy
    queue and 3 stayed, and the backend sent the 128. *)
Example poll_tx_busy :
  poll_tx send_all 129 qp_busy (mk_world [1] [] []) =
    Some (true, qp_busy_polled, mk_world [] [] (1 :: count_from 0 127)) ∧
  _proxy_packetq qp_busy = count_from 0 130 ∧
  _proxy_packetq qp_busy_polled = [127; 128; 129].
Proof. split; [vm_compute; reflexivity|]. split; vm_compute; reflexivity. Qed.


Lemma batch_never_above_128_witness :
  ∃ q' w',
    run_calls send_none 129
      [call_poll_tx; call_proxy_send 7; call_add_proxy 2; call_poll_tx]
      qp_ab (mk_world (count_from 0 100) (count_from 1000 100) []) =
      Some (q', w') ∧
    tx_size q' <= 128.
Proof.
  apply (batch_never_above_128 send_none 129
           [call_poll_tx; call_proxy_send 7; call_add_proxy 2; call_poll_tx]
           qp_ab (mk_world (count_from 0 100) (count_from 1000 100) [])).
  - intros l w0. simpl. lia.
  - lia.
  - vm_compute. discriminate.
Defined.


(** 130 forwarded packets: the first call sends 128 of them, the second
    the last 2. *)
Example poll_tx_forwards_in_two_calls :
  ∃ q1 w1 q2 w2,
    poll_tx send_all 129 (qp_forwarding (count_from 0 130))
      (mk_world [] [] []) = Some (true, q1, w1) ∧
    wire w1 = count_from 0 128 ∧
    _proxy_packetq q1 = [128; 129] ∧
    poll_tx send_all 129 q1 w1 = Some (true, q2, w2) ∧
    wire w2 = count_from 0 130 ∧
    _packets_snt q2 = 130.
Proof.
  eexists _, _, _, _. split; [vm_compute; reflexivity|].
  split; [by vm_compute|]. split; [by vm_compute|].
  split; [vm_compute; reflexivity|]. split; by vm_compute.
Qed.

Lemma poll_tx_default_send_witness :
  ∃ q1 w1,
    (if tx_size qp_ab <? 16
     then poll_tx_refill 129 qp_ab (mk_world [1; 3; 5] [2; 4] [])
     else Some (qp_ab, mk_world [1; 3; 5] [2; 4] [])) = Some (q1, w1) ∧
    tx_size q1 <= 128 ∧
    _packets_snt q1 = _packets_snt qp_ab ∧
    poll_tx (send_batch send1) 129 qp_ab (mk_world [1; 3; 5] [2; 4] []) =
      Some (match _tx_packetq q1 with
            | [] => (false, q1, w1)
            | _ :: _ =>
                (true,
                 mk_qp (_pkt_providers q1) (proxies q1) (_proxy_packetq q1) []
                       ((_packets_snt q1 + tx_size q1) mod 2 ^ 64)
                       (_packets_rcv q1) (tx_size q1) (_last_rx_bunch q1),
                 fold_left (λ w' x, send1 x w') (_tx_packetq q1) w1)
            end).
Proof.
  apply (poll_tx_default_send send1 129 qp_ab (mk_world [1; 3; 5] [2; 4] [])).
  - lia.
  - vm_compute. discriminate.
Defined.

Lemma update_rx_count_all_sum_witness :
  _packets_rcv (update_rx_count_all [3; 18446744073709551615; 4]
                  (@qp_new N world)) =
    (_packets_rcv (@qp_new N world) +
     foldr N.add 0 [3; 18446744073709551615; 4]) mod 2 ^ 64 ∧
  _last_rx_bunch (update_rx_count_all [3; 18446744073709551615; 4]
                    (@qp_new N world)) =
    List.last [3; 18446744073709551615; 4] (_last_rx_bunch (@qp_new N world)).
Proof.
  apply (update_rx_count_all_sum [3; 18446744073709551615; 4] (@qp_new N world)).
  reflexivity.
Defined.

Lemma proxy_provider_registered_once_witness :
  ∃ q' w',
    run_calls send_all 129
      [call_register_packet_provider provider_a; call_add_proxy 2;
       call_proxy_send 9; call_poll_tx; call_add_proxy 1;
       call_register_packet_provider provider_b; call_update_rx_count 5]
      qp_new (mk_world [1] [2] []) = Some (q', w') ∧
    proxies q' =
      added_proxies
        [call_register_packet_provider provider_a; call_add_proxy 2;
         call_proxy_send 9; call_poll_tx; call_add_proxy 1;
         call_register_packet_provider provider_b; call_update_rx_count 5] ∧
    length (List.filter is_proxy_provider (_pkt_providers q')) =
      (if may_forward q' then 1 else 0)%nat.
Proof.
  apply (proxy_provider_registered_once send_all 129
           [call_register_packet_provider provider_a; call_add_proxy 2;
            call_proxy_send 9; call_poll_tx; call_add_proxy 1;
            call_register_packet_provider provider_b; call_update_rx_count 5]
           (mk_world [1] [2] [])).
  - lia.
  - reflexivity.
Defined.

Lemma registrations_only_grow_witness :
  _pkt_providers qp_ab `prefix_of`
    _pkt_providers (add_proxy 3 (register_packet_provider provider_a qp_ab)) ∧
  proxies qp_ab `prefix_of`
    proxies (add_proxy 3 (register_packet_provider provider_a qp_ab)) ∧
  (may_forward qp_ab = true →
   may_forward (add_proxy 3 (register_packet_provider provider_a qp_ab)) = true).
Proof.
  apply (registrations_only_grow send_all 0
           [call_register_packet_provider provider_a; call_add_proxy 3]
           qp_ab (mk_world [] [] [])
           (add_proxy 3 (register_packet_provider provider_a qp_ab))
           (mk_world [] [] [])).
  reflexivity.
Defined.

Lemma hash2cpu_target_witness :
  ∃ src q,
    hash2qid (device_with 4 [1; 2]) 35 = Ok src ∧
    src < hw_queues_count (device_with 4 [1; 2]) ∧
    queue_for_cpu (device_with 4 [1; 2]) src = Ok q ∧
    (2 = src ∨ 2 ∈ proxies q).
Proof.
  apply (hash2cpu_target (device_with 4 [1; 2]) 35 2). reflexivity.
Defined.

Lemma hash2cpu_defined_witness :
  hash2cpu (device_with 32 [1; 2]) 35 = Undefined.
Proof.
  apply (proj2 (proj2 (hash2cpu_defined (device_with 32 [1; 2]) 35))).
  right. right. exists (add_proxy_all [1; 2] qp_new).
  split; [reflexivity|]. split; [discriminate|]. vm_compute. discriminate.
Defined.

Lemma hash2cpu_reaches_proxy_witness :
  N.shiftl (N.of_nat 1 + 1) (_rss_table_bits (device_with 4 [1; 2])) < 2 ^ 32 ∧
  hash2cpu (device_with 4 [1; 2])
    (N.shiftl (N.of_nat 1 + 1) (_rss_table_bits (device_with 4 [1; 2]))) = Ok 2.
Proof.
  apply (hash2cpu_reaches_proxy (device_with 4 [1; 2])
           (add_proxy_all [1; 2] qp_new) 1 2).
  - reflexivity.
  - reflexivity.
  - reflexivity.
  - reflexivity.
  - reflexivity.
Defined.

(** The bound matters: with a shift of 31 and two proxies, no 32-bit hash
    is routed to the second one. *)
Example hash2cpu_proxy_out_of_reach (hash : N) :
  hash < 2 ^ 32 → hash2cpu (device_with 31 [1; 2]) hash ≠ Ok 2.
Proof.
  intros Hhash. unfold hash2cpu, hash2qid.
  change (hw_queues_count (device_with 31 [1; 2])) with 1.
  change (1 =? 0) with false. cbv iota. rewrite N.mod_1_r.
  change (Ok 0 ≫= λ qid, forward_dst (device_with 31 [1; 2]) qid (λ _, hash))
    with (forward_dst (device_with 31 [1; 2]) 0 (λ _, hash)).
  rewrite (forward_dst_forward (device_with 31 [1; 2]) 0 _
             (add_proxy_all [1; 2] qp_new));
    [|reflexivity|discriminate|reflexivity].
  change (_rss_table_bits (device_with 31 [1; 2])) with 31.
  change (proxies (add_proxy_all [1; 2] (@qp_new unit unit))) with [1; 2].
  cbv zeta. rewrite N.shiftr_div_pow2.
  assert (Hq : hash / 2 ^ 31 < 2).
  { apply N.Div0.div_lt_upper_bound. exact Hhash. }
  remember (hash / 2 ^ 31) as t eqn:Et. clear Et Hhash.
  destruct (N.eq_dec t 0) as [->|Hne]; [vm_compute; discriminate|].
  assert (t = 1) as -> by lia. vm_compute. discriminate.
Qed.

Lemma set_local_queues_fresh_witness :
  ∃ d', set_local_queues [(2, add_proxy 0 qp_new); (0, qp_new)]
          (@device_new unit unit 3 1) = Ok d' ∧
        (∀ cpu dev, (cpu, dev) ∈ [(2, add_proxy 0 qp_new); (0, qp_new)] →
                    queue_for_cpu d' cpu = Ok dev) ∧
        (∀ cpu, cpu ∉ [(2, add_proxy 0 (@qp_new unit unit)); (0, qp_new)].*1 →
                queue_for_cpu d' cpu = Undefined).
Proof.
  apply (set_local_queues_fresh 3 1 [(2, add_proxy 0 qp_new); (0, qp_new)]).
  - simpl. apply NoDup_cons_2; [|apply NoDup_singleton].
    intros H. apply list_elem_of_singleton in H. discriminate.
  - simpl. intros cpu H. apply elem_of_cons in H as [->|H]; [simpl; lia|].
    apply list_elem_of_singleton in H. subst. simpl. lia.
Defined.

End MoreDemo.
